(** * The experience page: carousel pagination and year grouping

    A shallow embedding of the portfolio page's logic:
    - [lib/experienceData.ts]: the raw experience list, the year predicates
      [order] and the derived object [experienceByYear];
    - [app/experience/page.tsx]: the press carousel of [ExperiencePage];
    - [components/ExperienceDeck.tsx]: [buildItems], [TimelineEntry]'s
      press-hit fallback, and the two rails [PressHitsRail] and [PhotoRail].

    Numbers.  Every number the pagination code touches is an integer
    ([clientWidth], array lengths, the index, the sizing constants), so index
    arithmetic is done in [Z].  The one real division,
    [(viewportW + GAP) / (WIDTH + GAP)], is taken in [Q] and floored with
    [Qfloor], as [Math.floor] does.  A drag offset ([info.offset.x]) is a
    real number of pixels and is a [Q]. *)

From Stdlib Require Import ZArith QArith Qround Bool List String Ascii Lia.
From Stdlib Require Import Sorted Permutation.
From Stdlib Require DecimalString DecimalNat.
Import ListNotations.

Close Scope Q_scope.
Open Scope Z_scope.

(** ** JavaScript values used by the code *)

(** An optional or nullable field ([f?: T | null]). *)
Inductive optional (A : Type) : Type :=
| undefined : optional A
| null : optional A
| present : A -> optional A.
Arguments undefined {A}.
Arguments null {A}.
Arguments present {A} _.

(** [a ?? b] *)
Definition nullish {A : Type} (a : optional A) (b : A) : A :=
  match a with
  | present v => v
  | _ => b
  end.

(** [x < y] on real numbers, as a boolean. *)
Definition Qltb (x y : Q) : bool := negb (Qle_bool y x).

(** [Math.min(max, Math.max(min, n))]: the [clamp] helper, defined with the
    same body in page.tsx and in ExperienceDeck.tsx. *)
Definition clamp (n min max : Z) : Z := Z.min max (Z.max min n).

(** [el.clientWidth || 0] *)
Definition orZero (w : Z) : Z := if w =? 0 then 0 else w.

(** ** experienceData.ts: the record types *)

Record PressHit : Type := {
  publisher : string;
  href : string;
  logo : string
}.

Record ExperienceItem : Type := {
  dates : string;
  role : string;
  org : string;
  summary : string;
  link : optional string;
  link_text : optional string;
  image : optional string;
  photos : optional (list string);
  pressHits : optional (list PressHit)
}.

(** ** Carousel state and events

    Each carousel keeps two pieces of React state, the index ([pressIndex] in
    the page, [index] in the rails) and the measured [viewportW]. *)

Record CarouselState : Type := {
  index : Z;
  viewportW : Z
}.

(** What can happen to a mounted carousel: a click on one of the two nav
    buttons, the end of a drag with horizontal offset [offset_x], and the
    resize observer reporting the viewport's [clientWidth]. *)
Inductive CarouselEvent : Type :=
| ClickPrev
| ClickNext
| DragEnd (offset_x : Q)
| Resize (clientWidth : Z).

(** The state after each event of a sequence. *)
Fixpoint trace {S E : Type} (step : E -> S -> S) (st : S) (evs : list E) : list S :=
  match evs with
  | [] => []
  | ev :: evs' => let st' := step ev st in st' :: trace step st' evs'
  end.

Definition setIndexOf (f : Z -> Z) (st : CarouselState) : CarouselState :=
  {| index := f (index st); viewportW := viewportW st |}.

Definition setViewportWOf (w : Z) (st : CarouselState) : CarouselState :=
  {| index := index st; viewportW := w |}.

(** ** page.tsx: the press carousel of [ExperiencePage] *)

Module Page.

Record PressItem : Type := {
  title : string;
  href : string;
  source : optional string;
  image : optional string
}.

Section PressCarousel.
Variables CARD_WIDTH CARD_GAP : Z.
Variable pressItems : list PressItem.

Definition pressCount : Z := Z.of_nat (List.length pressItems).
Definition hasPress : bool := 0 <? pressCount.

Definition visibleCount (viewportW : Z) : Z :=
  if viewportW =? 0 then 1
  else Z.max 1 (Qfloor (inject_Z (viewportW + CARD_GAP) / inject_Z (CARD_WIDTH + CARD_GAP))).

Definition maxPressIndex (visible : Z) : Z :=
  Z.max 0 (pressCount - visible).

(** [maxPressIndex] of the render in which the viewport measures
    [viewportW]. *)
Definition maxPressIndexAt (viewportW : Z) : Z :=
  maxPressIndex (visibleCount viewportW).

Definition setPressIndex := setIndexOf.

(** The effect that depends on [maxPressIndex]. *)
Definition clampEffect (st : CarouselState) : CarouselState :=
  setPressIndex (fun prev => clamp prev 0 (maxPressIndexAt (viewportW st))) st.

Definition canPrev (st : CarouselState) : bool := 0 <? index st.
Definition canNext (st : CarouselState) : bool :=
  index st <? maxPressIndexAt (viewportW st).

Definition goPrevPress (st : CarouselState) : CarouselState :=
  if negb hasPress then st
  else setPressIndex (fun prev => Z.max 0 (prev - 1)) st.

Definition goNextPress (st : CarouselState) : CarouselState :=
  if negb hasPress then st
  else setPressIndex (fun prev => Z.min (maxPressIndexAt (viewportW st)) (prev + 1)) st.

Definition onDragEnd (offset_x : Q) (st : CarouselState) : CarouselState :=
  if Qltb offset_x (-60) && canNext st then goNextPress st
  else if Qltb 60 offset_x && canPrev st then goPrevPress st
  else st.

(** [update] of the measuring effect, [setViewportW(el.clientWidth || 0)],
    followed by the clamp effect when the new render has another
    [maxPressIndex]. *)
Definition update (clientWidth : Z) (st : CarouselState) : CarouselState :=
  let st' := setViewportWOf (orZero clientWidth) st in
  if maxPressIndexAt (viewportW st') =? maxPressIndexAt (viewportW st) then st'
  else clampEffect st'.

(** The handlers as wired in the JSX; a nav button is [disabled] when its
    flag is false, and a disabled button delivers no click. *)
Definition handle (ev : CarouselEvent) (st : CarouselState) : CarouselState :=
  match ev with
  | ClickPrev => if canPrev st then goPrevPress st else st
  | ClickNext => if canNext st then goNextPress st else st
  | DragEnd offset_x => onDragEnd offset_x st
  | Resize clientWidth => update clientWidth st
  end.

(** The whole carousel (viewport, draggable strip and nav buttons) sits
    under [hasPress && ...]: without press items nothing is rendered,
    [viewportRef.current] is null, no observer is installed, and no event
    reaches the handlers. *)
Definition step (ev : CarouselEvent) (st : CarouselState) : CarouselState :=
  if hasPress then handle ev st else st.

(** [useState(0)] twice, then the clamp effect of the first commit. *)
Definition init : CarouselState := clampEffect {| index := 0; viewportW := 0 |}.
End PressCarousel.
End Page.

(** ** ExperienceDeck.tsx: [PressHitsRail] *)

Module PressHitsRail.
Section Rail.
Variables HIT_DIAMETER HIT_GAP : Z.
Variable hits : list PressHit.

Definition visibleCount (viewportW : Z) : Z :=
  if viewportW =? 0 then 1
  else Z.max 1 (Qfloor (inject_Z (viewportW + HIT_GAP) / inject_Z (HIT_DIAMETER + HIT_GAP))).

Definition maxIndex (visible : Z) : Z :=
  Z.max 0 (Z.of_nat (List.length hits) - visible).

Definition maxIndexAt (viewportW : Z) : Z := maxIndex (visibleCount viewportW).

Definition setIndex := setIndexOf.

Definition clampEffect (st : CarouselState) : CarouselState :=
  setIndex (fun prev => clamp prev 0 (maxIndexAt (viewportW st))) st.

Definition canPrev (st : CarouselState) : bool := 0 <? index st.
Definition canNext (st : CarouselState) : bool := index st <? maxIndexAt (viewportW st).

Definition onDragEnd (offset_x : Q) (st : CarouselState) : CarouselState :=
  if Qltb offset_x (-60) && canNext st then setIndex (fun v => v + 1) st
  else if Qltb 60 offset_x && canPrev st then setIndex (fun v => v - 1) st
  else st.

(** [onClick] of the left and of the right nav button. *)
Definition onClickPrev (st : CarouselState) : CarouselState :=
  setIndex (fun v => Z.max 0 (v - 1)) st.
Definition onClickNext (st : CarouselState) : CarouselState :=
  setIndex (fun v => Z.min (maxIndexAt (viewportW st)) (v + 1)) st.

Definition update (clientWidth : Z) (st : CarouselState) : CarouselState :=
  let st' := setViewportWOf (orZero clientWidth) st in
  if maxIndexAt (viewportW st') =? maxIndexAt (viewportW st) then st'
  else clampEffect st'.

Definition handle (ev : CarouselEvent) (st : CarouselState) : CarouselState :=
  match ev with
  | ClickPrev => if canPrev st then onClickPrev st else st
  | ClickNext => if canNext st then onClickNext st else st
  | DragEnd offset_x => onDragEnd offset_x st
  | Resize clientWidth => update clientWidth st
  end.

(** The rail renders its viewport whatever [hits] holds, so every event
    reaches it. *)
Definition step := handle.

Definition init : CarouselState := clampEffect {| index := 0; viewportW := 0 |}.
End Rail.
End PressHitsRail.

(** ** ExperienceDeck.tsx: [PhotoRail] *)

Module PhotoRail.
Section Rail.
Variables PHOTO_W PHOTO_GAP : Z.
Variable photos : list string.

Definition visibleCount (viewportW : Z) : Z :=
  if viewportW =? 0 then 1
  else Z.max 1 (Qfloor (inject_Z (viewportW + PHOTO_GAP) / inject_Z (PHOTO_W + PHOTO_GAP))).

Definition maxIndex (visible : Z) : Z :=
  Z.max 0 (Z.of_nat (List.length photos) - visible).

Definition maxIndexAt (viewportW : Z) : Z := maxIndex (visibleCount viewportW).

Definition setIndex := setIndexOf.

Definition clampEffect (st : CarouselState) : CarouselState :=
  setIndex (fun prev => clamp prev 0 (maxIndexAt (viewportW st))) st.

Definition canPrev (st : CarouselState) : bool := 0 <? index st.
Definition canNext (st : CarouselState) : bool := index st <? maxIndexAt (viewportW st).

Definition onDragEnd (offset_x : Q) (st : CarouselState) : CarouselState :=
  if Qltb offset_x (-60) && canNext st then setIndex (fun v => v + 1) st
  else if Qltb 60 offset_x && canPrev st then setIndex (fun v => v - 1) st
  else st.

Definition onClickPrev (st : CarouselState) : CarouselState :=
  setIndex (fun v => Z.max 0 (v - 1)) st.
Definition onClickNext (st : CarouselState) : CarouselState :=
  setIndex (fun v => Z.min (maxIndexAt (viewportW st)) (v + 1)) st.

Definition update (clientWidth : Z) (st : CarouselState) : CarouselState :=
  let st' := setViewportWOf (orZero clientWidth) st in
  if maxIndexAt (viewportW st') =? maxIndexAt (viewportW st) then st'
  else clampEffect st'.

Definition handle (ev : CarouselEvent) (st : CarouselState) : CarouselState :=
  match ev with
  | ClickPrev => if canPrev st then onClickPrev st else st
  | ClickNext => if canNext st then onClickNext st else st
  | DragEnd offset_x => onDragEnd offset_x st
  | Resize clientWidth => update clientWidth st
  end.

Definition step := handle.

Definition init : CarouselState := clampEffect {| index := 0; viewportW := 0 |}.
End Rail.
End PhotoRail.

(** The sizing constants of the three carousels. *)
Definition CARD_WIDTH : Z := 253.
Definition CARD_GAP : Z := 16.
Definition HIT_DIAMETER : Z := 72.
Definition HIT_GAP : Z := 16.
Definition PHOTO_W : Z := 260.
Definition PHOTO_GAP : Z := 16.

(** ** JavaScript strings, objects and arrays

    Strings are byte strings; the keys and needles that the code matches are
    ASCII, where bytes and UTF-16 code units coincide. *)

Open Scope string_scope.

Definition nl : string := String (ascii_of_nat 10) EmptyString.

(** [s.includes(needle)] *)
Fixpoint includes (s needle : string) : bool :=
  String.prefix needle s ||
  match s with
  | EmptyString => false
  | String _ s' => includes s' needle
  end.

Definition lowerChar (c : ascii) : ascii :=
  let n := nat_of_ascii c in
  if (Nat.leb 65 n && Nat.leb n 90)%bool then ascii_of_nat (n + 32) else c.

(** [s.toLowerCase()], on the ASCII letters. *)
Fixpoint toLowerCase (s : string) : string :=
  match s with
  | EmptyString => EmptyString
  | String c s' => String (lowerChar c) (toLowerCase s')
  end.

Definition digitOf (c : ascii) : option Z :=
  let n := Z.of_nat (nat_of_ascii c) in
  if ((48 <=? n) && (n <=? 57))%bool%Z then Some (n - 48)%Z else None.

Fixpoint parseDigits (acc : Z) (s : string) : option Z :=
  match s with
  | EmptyString => Some acc
  | String c s' =>
      match digitOf c with
      | Some d => parseDigits (10 * acc + d)%Z s'
      | None => None
      end
  end.

(** [Number(s)] on strings of decimal digits whose value is at most 2^53
    (the year labels are): up to there every integer is a double, so the
    number is the value of the digits, and [Number(b) - Number(a)] is their
    exact difference.  [None] on every other string (larger values, which
    round to a double, signs, exponents, blanks, text), which this model
    does not interpret. *)
Definition Number (s : string) : option Z :=
  match parseDigits 0 s with
  | Some n => if (n <=? 9007199254740992)%Z then Some n else None
  | None => None
  end.

(** Is the property key an array index (a canonical numeric string below
    2^32 - 1)?  Such keys are enumerated first, in ascending numeric order. *)
Definition arrayIndex (k : string) : option Z :=
  match k with
  | EmptyString => None
  | String c rest =>
      if (Ascii.eqb c "0" && negb (String.eqb rest EmptyString))%bool then None
      else match parseDigits 0 k with
           | Some n => if (n <=? 4294967294)%Z then Some n else None
           | None => None
           end
  end.

(** An object: its own properties in enumeration order, that is array-index
    keys in ascending order, then the other keys in insertion order. *)
Definition jsobject (V : Type) : Type := list (string * V).

(** Must a new key [k] be enumerated before the existing key [k']? *)
Definition keyBefore (k k' : string) : bool :=
  match arrayIndex k, arrayIndex k' with
  | Some n, Some n' => (n <? n')%Z
  | Some _, None => true
  | None, _ => false
  end.

(** [o[k] = v] *)
Fixpoint obj_set {V : Type} (k : string) (v : V) (o : jsobject V) : jsobject V :=
  match o with
  | [] => [(k, v)]
  | (k', v') :: o' =>
      if String.eqb k k' then (k, v) :: o'
      else if keyBefore k k' then (k, v) :: (k', v') :: o'
      else (k', v') :: obj_set k v o'
  end.

(** [o[k]] for a key [k] among the object's own keys, the one way the code
    reads an object ([order[y]] and [experienceByYear[year]], with the key
    taken from [Object.keys]).  [undefined] for a key that is not an own
    key says that much only: what [Object.prototype] would answer for an
    inherited name such as [constructor] is not modelled. *)
Fixpoint obj_get {V : Type} (k : string) (o : jsobject V) : optional V :=
  match o with
  | [] => undefined
  | (k', v) :: o' => if String.eqb k k' then present v else obj_get k o'
  end.

(** [Object.fromEntries(entries)]; an object literal lists its entries the
    same way. *)
Definition fromEntries {V : Type} (entries : list (string * V)) : jsobject V :=
  fold_left (fun o kv => obj_set (fst kv) (snd kv) o) entries [].

(** [Object.keys(o)] *)
Definition keys {V : Type} (o : jsobject V) : list string := map fst o.

(** [l.sort(cmp)]: the sort is stable, and [cmp a b > 0] sends [a] behind [b]. *)
Fixpoint insertBy {A : Type} (cmp : A -> A -> Z) (x : A) (l : list A) : list A :=
  match l with
  | [] => [x]
  | y :: l' => if (0 <? cmp x y)%Z then y :: insertBy cmp x l' else x :: l
  end.

Definition sortBy {A : Type} (cmp : A -> A -> Z) (l : list A) : list A :=
  fold_right (insertBy cmp) [] l.

(** ** experienceData.ts: the data *)

Definition raw : list ExperienceItem := [
  {| dates := "August 2025 – Present";
     role := "Fulbright Scholar";
     org := "Fulbright Taiwan";
     summary :=
       "Isaac is living in New Taipei, Taiwan as a Fulbright Scholar, working in local elementary schools and engaging cross-culturally with students and staff. He also created and leads a collaboration with ChatGPT for Education/OpenAI and 20 Fulbright Scholars across Taiwan to benchmark education use cases for GPT-5 in K–12 English classrooms. This initiative, called a “Local Lab,” is the first partnership of its kind.";
     link := present "https://fulbright.org/";
     link_text :=
       present "Fulbright is one of the most competitive fellowship programs in the world. Learn more";
     image := null;
     photos := undefined;
     pressHits := undefined |};
  {| dates := "March 2025 – Present";
     role := "ChatGPT Lab Member";
     org := "OpenAI";
     summary :=
       "Isaac was selected as a member of the first-ever ChatGPT Lab, a small group of students from across the United States and Canada that provides critical insight to OpenAI on education use and product launches. Through this program, he helped publish OpenAI’s first book, worked directly with product and marketing teams across five major launches, and participated in workshops with other Lab members.";
     link := present "https://chatgpt.com/use-cases/students";
     link_text :=
       present "He co-developed 100 uses for ChatGPT in higher education. Learn more";
     image := null;
     photos := undefined;
     pressHits := undefined |};
  {| dates := "June 2025 – August 2025";
     role := "AI and Emerging Tech Research Fellow";
     org := "Council for State Governments, Center for Innovation";
     summary :=
       "Over a few short weeks, Isaac designed, built, and presented the first-ever state government AI adoption index, measuring across 900 data inputs how 56 state and territory governments across the United States are embracing generative artificial intelligence.";
     link := undefined;
     link_text :=
       undefined;
     image := null;
     photos := undefined;
     pressHits := undefined |};
  {| dates := "May 2024 – August 2025";
     role := "Social Impact Communications and Strategy";
     org := "Boehringer Ingelheim Pharmaceuticals";
     summary :=
       "At Boehringer Ingelheim Pharmaceuticals, Isaac directed the corporate foundation’s communications strategy. He spearheaded a comprehensive rebranding initiative, conducted in-depth data analyses for narrative development, strengthened employee engagement, and collaborated with UX/UI teams to optimize user experiences for both private and public foundation resources.";
     link := present "https://www.boehringer-ingelheim.com/annualreport/2024/facts-and-figures/";
     link_text :=
       present "Boehringer Ingelheim is one of the largest life sciences companies in the world. Learn more";
     image := null;
     photos := undefined;
     pressHits := undefined |};
  {| dates := "January 2024 – April 2025";
     role := "Freelance Communications Strategy Consultant";
     org := "Isaac Seiler Strategies";
     summary :=
       "Isaac founded and ran his own consultancy, taking on 7+ clients and delivering full digital products tailored to their needs. He worked on everything from visual assets to crisis communications, supporting organizations in Arizona, California, and Michigan.";
     link := present "https://www.allysonfortustin.com/";
     link_text :=
       present "Explore one of the campaigns he consulted for (including a site he built)";
     image := null;
     photos := undefined;
     pressHits := undefined |};
  {| dates := "November 2022 – June 2023";
     role := "Communications Director and Transition Aide";
     org := "United States House of Representatives";
     summary :=
       "Isaac was the first staff member for a new congressional office, directing hiring, strategy formation, and complex logistics. He helped build a political brand and stand up an entire congressional operation in under two months. He then built and led a competitive communications program for a frontline member of Congress, becoming the youngest person to serve as Director of Communications in congressional history. He placed stories in outlets including the New York Times and Washington Post, secured cable hits on CNN’s State of the Union with Jake Tapper and Dana Bash, and led earned, owned, and paid media for the office—reaching hundreds of thousands of people each week.";
     link := present "https://www.notion.so/Press-Hit-List-25b96844a3ac4a8abac3d749412938cb?source=copy_link";
     link_text :=
       present "Browse a sample of press hits and other materials";
     image := null;
     photos := undefined;
     pressHits := present [
      {| publisher := "CNN";
         href := "https://www.cnn.com/shows/state-of-the-union";
         logo := "https://pub-41d52824b0bb4f44898c39e1c3c63cb8.r2.dev/media-portfolio/cnn.png" |};
      {| publisher := "Dispatch";
         href := "https://www.dispatch.com/";
         logo := "https://pub-41d52824b0bb4f44898c39e1c3c63cb8.r2.dev/media-portfolio/dispatch.png" |};
      {| publisher := "NYT";
         href := "https://www.nytimes.com/";
         logo := "https://pub-41d52824b0bb4f44898c39e1c3c63cb8.r2.dev/media-portfolio/nyt.png" |};
      {| publisher := "WaPo";
         href := "https://www.washingtonpost.com/";
         logo := "https://pub-41d52824b0bb4f44898c39e1c3c63cb8.r2.dev/media-portfolio/wapo.png" |};
      {| publisher := "Slate";
         href := "https://slate.com/";
         logo := "https://pub-41d52824b0bb4f44898c39e1c3c63cb8.r2.dev/media-portfolio/slate.png" |};
      {| publisher := ("Michigan" ++ nl ++ "Advance");
         href := "https://michiganadvance.com/";
         logo := "https://pub-41d52824b0bb4f44898c39e1c3c63cb8.r2.dev/media-portfolio/advance.png" |};
      {| publisher := "MLive";
         href := "https://www.mlive.com/";
         logo := "https://pub-41d52824b0bb4f44898c39e1c3c63cb8.r2.dev/media-portfolio/mlive.png" |};
      {| publisher := "RIAA";
         href := "https://www.riaa.com/";
         logo := "https://pub-41d52824b0bb4f44898c39e1c3c63cb8.r2.dev/media-portfolio/riaa.png" |};
      {| publisher := ("The" ++ nl ++ "19th");
         href := "https://19thnews.org/";
         logo := "https://pub-41d52824b0bb4f44898c39e1c3c63cb8.r2.dev/media-portfolio/19th.png" |} ] |};
  {| dates := "June 2022 – November 2022";
     role := "Digital Communications, Logistics, and Strategy";
     org := "Hillary Scholten for U.S. Congress";
     summary :=
       "Isaac began as a fellow on one of the most high-profile congressional races of 2022 and quickly moved up to oversee the campaign’s digital program. Through a rapidly scaled social media strategy, he organically reached over 1 million people weekly and generated tens of thousands in grassroots fundraising. In addition, he served as the logistical backbone of the campaign—coordinating logistics for 100+ events, including events with governors, members of Congress, and cabinet secretaries.";
     link := present "https://www.vanityfair.com/news/2022/06/democrats-midterms-house-michigan-districts-scholten-meijer";
     link_text :=
       present "Read the Vanity Fair piece on the primary campaign";
     image := null;
     photos := undefined;
     pressHits := undefined |};
  {| dates := "January 2021 – August 2022";
     role := "Research Assistant";
     org := "Institute for Nonprofit News";
     summary :=
       "Isaac worked on a small, international research team processing and analyzing quantitative data for the largest consortium of nonprofit news organizations in the world. He also partnered with INN contractors on research into how stakeholders access news on digital and social platforms.";
     link := present "https://inn.org/research/inn-index/inn-index-2022/inn-index-2022/";
     link_text :=
       present "See the 2022 INN Index report";
     image := null;
     photos := undefined;
     pressHits := undefined |} ].

Definition order : jsobject (ExperienceItem -> bool) :=
  fromEntries [
    ("2025", fun i =>
       includes (role i) "Fulbright" ||
       includes (role i) "ChatGPT Lab" ||
       includes (role i) "Emerging Tech");
    ("2024", fun i =>
       includes (role i) "Social Impact" || includes (role i) "Freelance Communications");
    ("2023", fun i => includes (role i) "Communications Director");
    ("2022", fun i => includes (role i) "Digital Communications");
    ("2021", fun i => includes (role i) "Research Assistant") ].

(** [Object.fromEntries(Object.keys(order).map((y) => [y, raw.filter(order[y])]))]
    as a function of the list in the place of [raw]; [order[y]], for [y] a
    key of [order], is the predicate stored under [y] (lemma
    [order_lookup]). *)
Definition groupByYear (entries : list ExperienceItem) : jsobject (list ExperienceItem) :=
  fromEntries (map (fun yp => (fst yp, filter (snd yp) entries)) order).

Definition experienceByYear : jsobject (list ExperienceItem) := groupByYear raw.

(** ** ExperienceDeck.tsx: [buildItems] and [TimelineEntry] *)

(** [ExperienceItem & { year: string }], built as [{ ...item, year }]. *)
Record ExperienceWithYear : Type := {
  entry : ExperienceItem;
  year : string
}.

(** [(a, b) => Number(b) - Number(a)] *)
Definition byYearDescending (a b : string) : Z :=
  match Number b, Number a with
  | Some nb, Some na => (nb - na)%Z
  | _, _ => 0%Z
  end.

Definition buildItemsFrom (byYear : jsobject (list ExperienceItem)) : list ExperienceWithYear :=
  let years := sortBy byYearDescending (keys byYear) in
  flat_map
    (fun year => map (fun item => {| entry := item; year := year |})
                     (nullish (obj_get year byYear) []))
    years.

Definition buildItems : list ExperienceWithYear := buildItemsFrom experienceByYear.

Definition DEFAULT_COMMS_PRESS_HITS : list PressHit := [
  {| publisher := "CNN";
     href := "https://www.cnn.com/shows/state-of-the-union";
     logo := "https://pub-41d52824b0bb4f44898c39e1c3c63cb8.r2.dev/media-portfolio/cnn.png" |};
  {| publisher := "Dispatch";
     href := "https://www.dispatch.com/";
     logo := "https://pub-41d52824b0bb4f44898c39e1c3c63cb8.r2.dev/media-portfolio/dispatch.png" |};
  {| publisher := "NYT";
     href := "https://www.nytimes.com/";
     logo := "https://pub-41d52824b0bb4f44898c39e1c3c63cb8.r2.dev/media-portfolio/nyt.png" |};
  {| publisher := "WaPo";
     href := "https://www.washingtonpost.com/";
     logo := "https://pub-41d52824b0bb4f44898c39e1c3c63cb8.r2.dev/media-portfolio/wapo.png" |};
  {| publisher := "Slate";
     href := "https://slate.com/";
     logo := "https://pub-41d52824b0bb4f44898c39e1c3c63cb8.r2.dev/media-portfolio/slate.png" |};
  {| publisher := ("Michigan" ++ nl ++ "Advance");
     href := "https://michiganadvance.com/";
     logo := "https://pub-41d52824b0bb4f44898c39e1c3c63cb8.r2.dev/media-portfolio/advance.png" |};
  {| publisher := "MLive";
     href := "https://www.mlive.com/";
     logo := "https://pub-41d52824b0bb4f44898c39e1c3c63cb8.r2.dev/media-portfolio/mlive.png" |};
  {| publisher := "RIAA";
     href := "https://www.riaa.com/";
     logo := "https://pub-41d52824b0bb4f44898c39e1c3c63cb8.r2.dev/media-portfolio/riaa.png" |};
  {| publisher := ("The" ++ nl ++ "19th");
     href := "https://19thnews.org/";
     logo := "https://pub-41d52824b0bb4f44898c39e1c3c63cb8.r2.dev/media-portfolio/19th.png" |} ].

Definition isCommsDirector (item : ExperienceWithYear) : bool :=
  includes (toLowerCase (role (entry item))) "communications director" ||
  includes (toLowerCase (org (entry item))) "house of representatives".

(** [(item.pressHits?.length ? item.pressHits : undefined) ??
     (isCommsDirector ? DEFAULT_COMMS_PRESS_HITS : [])] *)
Definition pressHitsOf (item : ExperienceWithYear) : list PressHit :=
  let hasOwn :=
    match pressHits (entry item) with
    | present l => negb (Nat.eqb (List.length l) 0)
    | _ => false
    end in
  nullish (if hasOwn then pressHits (entry item) else undefined)
          (if isCommsDirector item then DEFAULT_COMMS_PRESS_HITS else []).

(** [{pressHits.length > 0 && <PressHitsRail hits={pressHits} ... />}]: the
    [hits] prop of the rail, when the rail is rendered. *)
Definition pressHitsRailOf (item : ExperienceWithYear) : option (list PressHit) :=
  let hits := pressHitsOf item in
  if Nat.ltb 0 (List.length hits) then Some hits else None.

(** [Boolean(s)] on a string: the empty string is falsy. *)
Definition truthy (s : string) : bool := negb (String.eqb s EmptyString).

(** The [photos] memo of [TimelineEntry]:
    [fromList = (item.photos ?? undefined)?.filter(Boolean) ?? []],
    [fromSingle = item.image ? [item.image] : []],
    [fromList.length ? fromList : fromSingle]. *)
Definition photosOf (item : ExperienceWithYear) : list string :=
  let fromList :=
    match photos (entry item) with
    | present l => filter truthy l
    | _ => []
    end in
  let fromSingle :=
    match image (entry item) with
    | present src => if truthy src then [src] else []
    | _ => []
    end in
  if negb (Nat.eqb (List.length fromList) 0) then fromList else fromSingle.

(** [{photos.length > 0 && <PhotoRail photos={photos} ... />}] *)
Definition photoRailOf (item : ExperienceWithYear) : option (list string) :=
  let photos := photosOf item in
  if Nat.ltb 0 (List.length photos) then Some photos else None.

(** ** page.tsx: the data *)

Definition pressItems : list Page.PressItem := [
  {| Page.title := "Featured in launch of ChatGPT Pulse";
     Page.href := "https://openai.com/index/introducing-chatgpt-pulse/";
     Page.source := present "OpenAI";
     Page.image := present "https://pub-41d52824b0bb4f44898c39e1c3c63cb8.r2.dev/press/pulse.jpg" |};
  {| Page.title := "OpenAI Instagram spotlight on ChatGPT Study Mode";
     Page.href := "https://www.instagram.com/chatgpt/reel/DNyG5VvXEZM/";
     Page.source := present "OpenAI";
     Page.image := present "https://pub-41d52824b0bb4f44898c39e1c3c63cb8.r2.dev/press/study-mode.jpg" |};
  {| Page.title := "WashU Rhodes Scholar finalist";
     Page.href := "https://source.wustl.edu/2024/11/seniors-darden-seiler-were-rhodes-scholars-finalists/";
     Page.source := present "Rhodes Trust";
     Page.image := present "https://pub-41d52824b0bb4f44898c39e1c3c63cb8.r2.dev/press/rhodes.jpg" |};
  {| Page.title := "Co-published Book on Education Uses of ChatGPT";
     Page.href := "https://chatgpt.com/100chats-project";
     Page.source := present "OpenAI";
     Page.image := present "https://pub-41d52824b0bb4f44898c39e1c3c63cb8.r2.dev/press/100chats.jpg" |};
  {| Page.title := "Awarded 2024 Michigan Truman Scholarship";
     Page.href := "https://source.washu.edu/2024/04/junior-seiler-awarded-truman-scholarship/";
     Page.source := present "Washington University";
     Page.image := present "https://pub-41d52824b0bb4f44898c39e1c3c63cb8.r2.dev/press/truman.jpg" |};
  {| Page.title := "Awarded 2025 Fulbright to Taiwan";
     Page.href := "https://source.wustl.edu/2025/06/several-alumni-earn-fulbright-awards/";
     Page.source := present "Washington University";
     Page.image := present "https://pub-41d52824b0bb4f44898c39e1c3c63cb8.r2.dev/press/fulbright.jpg" |};
  {| Page.title := "Truman Scholarship Q+A";
     Page.href := EmptyString;
     Page.source := present "Student Life";
     Page.image := present "https://pub-41d52824b0bb4f44898c39e1c3c63cb8.r2.dev/press/trumanisaac.jpg" |};
  {| Page.title := "60 Truman Scholars Announced For 2024";
     Page.href := EmptyString;
     Page.source := present "Forbes";
     Page.image := present "https://pub-41d52824b0bb4f44898c39e1c3c63cb8.r2.dev/press/harrytruman.jpg" |};
  {| Page.title := "Included in the best newspaper honor at Missouri College Media awards";
     Page.href := EmptyString;
     Page.source := present "Washington University";
     Page.image := present "https://pub-41d52824b0bb4f44898c39e1c3c63cb8.r2.dev/press/washuspring.png" |};
  {| Page.title := "University profile";
     Page.href := "https://artsci.washu.edu/ampersand/isaac-seiler-setting-his-sights-high";
     Page.source := present "Washington University";
     Page.image := present "https://pub-41d52824b0bb4f44898c39e1c3c63cb8.r2.dev/press/wustl.jpg" |} ].

Close Scope string_scope.

(** ** Properties of states and runs *)

(** The index lies between 0 and the maximum index of the current render;
    [maxAt] gives that maximum from the measured viewport width. *)
Definition inRange (maxAt : Z -> Z) (st : CarouselState) : Prop :=
  0 <= index st <= maxAt (viewportW st).

(** The state reached after a whole sequence of events. *)
Definition run {S E : Type} (step : E -> S -> S) (st : S) (evs : list E) : S :=
  fold_left (fun s ev => step ev s) evs st.

(** How many of the predicates accept [x]. *)
Definition accepting {A : Type} (preds : list (A -> bool)) (x : A) : nat :=
  List.length (filter (fun p => p x) preds).

(** The years whose predicate of [order] accepts the entry. *)
Definition matchingYears (e : ExperienceItem) : list string :=
  keys (filter (fun yp => snd yp e) order).

(** The entries listed under the year [y], in the order of the list. *)
Definition bucketOf (y : string) (items : list ExperienceWithYear) : list ExperienceItem :=
  map entry (filter (fun x => String.eqb (year x) y) items).

(** [a], listed before [b], is of the same year or of a numerically later
    one. *)
Definition yearsDescend (a b : ExperienceWithYear) : Prop :=
  year a = year b \/
  exists na nb, Number (year a) = Some na /\ Number (year b) = Some nb /\ nb < na.

(** The entries accepted under each year of [ys], tagged with the year and
    listed year after year. *)
Definition yearBlocks (ys : list (string * (ExperienceItem -> bool)))
    (entries : list ExperienceItem) : list ExperienceWithYear :=
  flat_map (fun yp => map (fun item => {| entry := item; year := fst yp |})
                          (filter (snd yp) entries))
           ys.

(** The year label [p] is numerically later than [q]. *)
Definition laterYear (p q : string) : Prop :=
  exists a b, Number p = Some a /\ Number q = Some b /\ b < a.

(** An entry with a communications director's role and no press hits of
    its own, for an example of the fallback. *)
Definition commsEntryWithoutHits : ExperienceWithYear :=
  {| entry := {| dates := "2023"%string;
                 role := "Communications Director"%string;
                 org := "Campaign office"%string;
                 summary := EmptyString;
                 link := undefined;
                 link_text := undefined;
                 image := null;
                 photos := undefined;
                 pressHits := undefined |};
     year := "2023"%string |}.

(** ** What the components render

    The parts of the JSX that compute something: the offset of the sliding
    strip, the position label, the wrappers and React keys of the items,
    and the rows of the timeline. *)

(** [l.map((x, i) => f x i)], counting from [i]. *)
Fixpoint mapFrom {A B : Type} (f : A -> nat -> B) (i : nat) (l : list A) : list B :=
  match l with
  | [] => []
  | x :: l' => f x i :: mapFrom f (S i) l'
  end.

Definition mapIndexed {A B : Type} (f : A -> nat -> B) (l : list A) : list B :=
  mapFrom f 0 l.

(** An array index inside a template literal: its decimal digits. *)
Definition showIndex (i : nat) : string :=
  DecimalString.NilEmpty.string_of_uint (Nat.to_uint i).

(** [`${prefix}-${i}`] *)
Definition dashKey (prefix : string) (i : nat) : string :=
  (prefix ++ "-" ++ showIndex i)%string.

(** An item of a strip: wrapped in a [Link] when it has an [href], in a
    [div] with [aria-disabled] when it has none. *)
Inductive Wrapper : Type :=
| DisabledBlock (key : string)
| LinkBlock (key : string) (target : string).

Definition wrapperKey (w : Wrapper) : string :=
  match w with
  | DisabledBlock key => key
  | LinkBlock key _ => key
  end.

Module PageView.

(** [animate={{ x: -pressIndex * (CARD_WIDTH + CARD_GAP) }}] *)
Definition animateX (CARD_WIDTH CARD_GAP : Z) (st : CarouselState) : Z :=
  - index st * (CARD_WIDTH + CARD_GAP).

(** [{pressIndex + 1} / {pressCount}] *)
Definition positionLabel (pressItems : list Page.PressItem) (st : CarouselState) : Z * Z :=
  (index st + 1, Page.pressCount pressItems).

(** The body of [pressItems.map((item, idx) => ...)]. *)
Definition card (item : Page.PressItem) (idx : nat) : Wrapper :=
  if negb (truthy (Page.href item)) then DisabledBlock (dashKey (Page.title item) idx)
  else LinkBlock (dashKey (Page.href item) idx) (Page.href item).

Definition cards (pressItems : list Page.PressItem) : list Wrapper :=
  mapIndexed card pressItems.

End PageView.

Module PressHitsRailView.

(** [animate={{ x: -index * (HIT_DIAMETER + HIT_GAP) }}] *)
Definition animateX (HIT_DIAMETER HIT_GAP : Z) (st : CarouselState) : Z :=
  - index st * (HIT_DIAMETER + HIT_GAP).

(** [{Math.min(index + 1, hits.length)} / {hits.length}] *)
Definition positionLabel (hits : list PressHit) (st : CarouselState) : Z * Z :=
  (Z.min (index st + 1) (Z.of_nat (List.length hits)), Z.of_nat (List.length hits)).



(** The body of [hits.map((hit, i) => ...)]. *)
Definition circle (hit : PressHit) (i : nat) : Wrapper :=
  if negb (truthy (href hit)) then DisabledBlock (dashKey (publisher hit) i)
  else LinkBlock (dashKey (href hit) i) (href hit).

Definition circles (hits : list PressHit) : list Wrapper := mapIndexed circle hits.

End PressHitsRailView.

Module PhotoRailView.

(** [animate={{ x: -index * (PHOTO_W + PHOTO_GAP) }}] *)
Definition animateX (PHOTO_W PHOTO_GAP : Z) (st : CarouselState) : Z :=
  - index st * (PHOTO_W + PHOTO_GAP).

(** [{Math.min(index + 1, photos.length)} / {photos.length}] *)
Definition positionLabel (photos : list string) (st : CarouselState) : Z * Z :=
  (Z.min (index st + 1) (Z.of_nat (List.length photos)), Z.of_nat (List.length photos)).

(** [key={`${src}-${i}`}] of each [figure]. *)
Definition figureKeys (photos : list string) : list string := mapIndexed dashKey photos.

End PhotoRailView.

(** [makeEntryKey]: [`${item.year}-${item.org}-${item.role}-${index}`] *)
Definition makeEntryKey (item : ExperienceWithYear) (index : nat) : string :=
  dashKey (year item ++ "-" ++ org (entry item) ++ "-" ++ role (entry item))%string index.

(** A row of [ExperienceTimelineList]: the key and the amount of the
    [Parallax] wrapper, and the entry shown. *)
Record TimelineRow : Type := {
  rowKey : string;
  amount : Z;
  rowItem : ExperienceWithYear
}.

(** The body of [items.map((item, index) => ...)] in
    [ExperienceTimelineList]. *)
Definition timelineRow (item : ExperienceWithYear) (index : nat) : TimelineRow :=
  {| rowKey := makeEntryKey item index;
     amount := if Nat.eqb (Nat.modulo index 2) 0 then -70 else -55;
     rowItem := item |}.

Definition ExperienceTimelineList (items : list ExperienceWithYear) : list TimelineRow :=
  mapIndexed timelineRow items.

Inductive Mode : Type := cards | timeline.

Inductive DeckView : Type :=
| NoEntriesYet
| Timeline (rows : list TimelineRow).

(** [ExperienceDeck], from the list that [buildItems] returned. *)
Definition ExperienceDeckOf (mode : Mode) (items : list ExperienceWithYear) : DeckView :=
  if Nat.eqb (List.length items) 0 then NoEntriesYet
  else match mode with
       | timeline => Timeline (ExperienceTimelineList items)
       | cards => Timeline (ExperienceTimelineList items)
       end.

(** The suffix of a string after its last dash, read with the characters
    seen since the last dash in [acc]. *)
Fixpoint afterLastDash (acc s : string) : string :=
  match s with
  | EmptyString => acc
  | String c s' =>
      if Ascii.eqb c "-"%char then afterLastDash EmptyString s'
      else afterLastDash (acc ++ String c EmptyString)%string s'
  end.


(** The largest number of items, [W] wide and [G] apart, that fit in a
    viewport [v] wide is [k]. *)
Definition fitsExactly (W G v k : Z) : Prop :=
  k * W + (k - 1) * G <= v < (k + 1) * W + k * G.

(** Where tile [k] of a strip starts, seen from the viewport: the strip is
    a [flex] row of tiles [W] wide with a gap of [G], shifted by the
    animated offset [x]. *)
Definition tileLeft (x W G k : Z) : Z := x + k * (W + G).

(** The number a year label stands for (0 for a label that [Number] does
    not read). *)
Definition yearValue (label : string) : Z :=
  match Number label with
  | Some n => n
  | None => 0
  end.

(** The buckets [bucket y] of the years [ys], each entry tagged with its
    year, one bucket after the other. *)
Definition taggedBuckets (bucket : string -> list ExperienceItem) (ys : list string)
    : list ExperienceWithYear :=
  flat_map (fun y => map (fun item => {| entry := item; year := y |}) (bucket y)) ys.

(** * Proofs *)

(** ** Arithmetic of the helpers *)

Lemma Qltb_lt (x y : Q) : Qltb x y = true <-> (x < y)%Q.
Proof.
  unfold Qltb. rewrite negb_true_iff. split.
  - intros H. apply Qnot_le_lt. intros Hle.
    apply Qle_bool_iff in Hle. congruence.
  - intros H. destruct (Qle_bool y x) eqn:E; [|reflexivity].
    apply Qle_bool_iff in E. exfalso. exact (Qlt_not_le _ _ H E).
Qed.

Lemma Qltb_ge (x y : Q) : Qltb x y = false <-> (y <= x)%Q.
Proof.
  unfold Qltb. rewrite negb_false_iff. apply Qle_bool_iff.
Qed.

Lemma clamp_in_range (n hi : Z) : 0 <= hi -> 0 <= clamp n 0 hi <= hi.
Proof. unfold clamp. lia. Qed.

Lemma clamp_fixed (n hi : Z) : 0 <= n <= hi -> clamp n 0 hi = n.
Proof. unfold clamp. lia. Qed.

(** Flooring the real quotient of two integers is Euclidean division. *)
Lemma floor_quotient (a b : Z) : Qfloor (inject_Z a / inject_Z b) = a / b.
Proof. symmetry. apply Zdiv_Qdiv. Qed.

(** Fewer than one item fits in the bare gap: the early return on an
    unmeasured viewport agrees with the general formula. *)
Lemma floor_gap (W G : Z) :
  0 < W -> 0 <= G -> Qfloor (inject_Z (0 + G) / inject_Z (W + G)) = 0.
Proof.
  intros HW HG. rewrite floor_quotient. apply Z.div_small. lia.
Qed.

Lemma trace_Forall {S E : Type} (step : E -> S -> S) (P : S -> Prop) :
  (forall ev st, P st -> P (step ev st)) ->
  forall evs st, P st -> Forall P (trace step st evs).
Proof.
  intros Hstep evs. induction evs as [|ev evs IH]; intros st Hst; simpl.
  - constructor.
  - constructor; [|apply IH]; apply Hstep; exact Hst.
Qed.

Lemma run_invariant {S E : Type} (step : E -> S -> S) (P : S -> Prop) :
  (forall ev st, P st -> P (step ev st)) ->
  forall evs st, P st -> P (run step st evs).
Proof.
  intros Hstep evs. unfold run.
  induction evs as [|ev evs IH]; intros st Hst; simpl; auto.
Qed.

(** Unfolding of the handlers of the three carousels, down to the tests on
    the index and the maximum index. *)
Ltac unfold_handlers :=
  cbv beta iota zeta delta
    [Page.handle Page.step Page.onDragEnd Page.update Page.goPrevPress
     Page.goNextPress Page.clampEffect Page.canPrev Page.canNext
     Page.setPressIndex Page.init
     PressHitsRail.handle PressHitsRail.step PressHitsRail.onDragEnd
     PressHitsRail.update PressHitsRail.onClickPrev PressHitsRail.onClickNext
     PressHitsRail.clampEffect PressHitsRail.canPrev PressHitsRail.canNext
     PressHitsRail.setIndex PressHitsRail.init
     PhotoRail.handle PhotoRail.step PhotoRail.onDragEnd
     PhotoRail.update PhotoRail.onClickPrev PhotoRail.onClickNext
     PhotoRail.clampEffect PhotoRail.canPrev PhotoRail.canNext
     PhotoRail.setIndex PhotoRail.init
     setIndexOf setViewportWOf index viewportW inRange] in *.

(** Case analysis on the boolean tests of the handlers. *)
Ltac split_tests :=
  repeat match goal with
    | |- context [(?m <? ?n)%Z] => destruct (Z.ltb_spec m n)
    | |- context [(?m =? ?n)%Z] => destruct (Z.eqb_spec m n)
    | |- context [Qltb ?p ?q] => destruct (Qltb p q) eqn:?
    | |- context [Page.hasPress ?l] => destruct (Page.hasPress l) eqn:?
    end;
  cbn [andb negb] in *.

(** ** At least one item is visible *)

Lemma page_visible_pos (W G v : Z) : 1 <= Page.visibleCount W G v.
Proof. unfold Page.visibleCount. destruct (v =? 0); lia. Qed.

Lemma hits_visible_pos (W G v : Z) : 1 <= PressHitsRail.visibleCount W G v.
Proof. unfold PressHitsRail.visibleCount. destruct (v =? 0); lia. Qed.

Lemma photo_visible_pos (W G v : Z) : 1 <= PhotoRail.visibleCount W G v.
Proof. unfold PhotoRail.visibleCount. destruct (v =? 0); lia. Qed.

(** ** The index stays in range, carousel by carousel *)

Section PageInvariant.
Variables W G : Z.
Variable items : list Page.PressItem.

Let maxAt := Page.maxPressIndexAt W G items.

Lemma page_max_nonneg (v : Z) : 0 <= maxAt v.
Proof. unfold maxAt, Page.maxPressIndexAt, Page.maxPressIndex. lia. Qed.

Lemma page_init_eq : Page.init W G items = {| index := 0; viewportW := 0 |}.
Proof.
  unfold_handlers. f_equal. apply clamp_fixed. pose proof (page_max_nonneg 0).
  unfold maxAt in *. lia.
Qed.

Lemma page_init_inRange : inRange maxAt (Page.init W G items).
Proof.
  rewrite page_init_eq. unfold_handlers. pose proof (page_max_nonneg 0). lia.
Qed.

Lemma page_handle_inRange (ev : CarouselEvent) (st : CarouselState) :
  inRange maxAt st -> inRange maxAt (Page.handle W G items ev st).
Proof.
  destruct st as [i v]. intros Hi.
  pose proof (page_max_nonneg v) as Hv.
  destruct ev as [| |x|w]; unfold maxAt in *; unfold_handlers;
    split_tests; unfold_handlers; try lia.
  pose proof (page_max_nonneg (orZero w)) as Hw. unfold maxAt in Hw.
  unfold clamp. lia.
Qed.

Lemma page_step_inRange (ev : CarouselEvent) (st : CarouselState) :
  inRange maxAt st -> inRange maxAt (Page.step W G items ev st).
Proof.
  intros H. unfold Page.step. destruct (Page.hasPress items); auto.
  apply page_handle_inRange; exact H.
Qed.

(** A resize leaves the index clamped under the new maximum. *)
Lemma page_resize_clamps (w : Z) (st : CarouselState) :
  inRange maxAt st ->
  index (Page.step W G items (Resize w) st) = clamp (index st) 0 (maxAt (orZero w)).
Proof.
  destruct st as [i v]. intros Hi. unfold maxAt in *.
  unfold Page.step. destruct (Page.hasPress items) eqn:Hp.
  - unfold_handlers. split_tests; unfold_handlers.
    + rewrite clamp_fixed; [reflexivity | lia].
    + reflexivity.
  - (* without press items both maxima are 0 *)
    unfold Page.hasPress in Hp. apply Z.ltb_ge in Hp.
    unfold inRange, Page.maxPressIndexAt, Page.maxPressIndex in *. cbn [index viewportW] in *.
    assert (Hv := page_visible_pos W G v).
    assert (Hw := page_visible_pos W G (orZero w)).
    unfold clamp. lia.
Qed.
End PageInvariant.

Section PressHitsRailInvariant.
Variables W G : Z.
Variable hits : list PressHit.

Let maxAt := PressHitsRail.maxIndexAt W G hits.

Lemma hits_max_nonneg (v : Z) : 0 <= maxAt v.
Proof. unfold maxAt, PressHitsRail.maxIndexAt, PressHitsRail.maxIndex. lia. Qed.

Lemma hits_init_eq : PressHitsRail.init W G hits = {| index := 0; viewportW := 0 |}.
Proof.
  unfold_handlers. f_equal. apply clamp_fixed. pose proof (hits_max_nonneg 0).
  unfold maxAt in *. lia.
Qed.

Lemma hits_init_inRange : inRange maxAt (PressHitsRail.init W G hits).
Proof.
  rewrite hits_init_eq. unfold_handlers. pose proof (hits_max_nonneg 0). lia.
Qed.

Lemma hits_step_inRange (ev : CarouselEvent) (st : CarouselState) :
  inRange maxAt st -> inRange maxAt (PressHitsRail.step W G hits ev st).
Proof.
  destruct st as [i v]. intros Hi.
  pose proof (hits_max_nonneg v) as Hv.
  destruct ev as [| |x|w]; unfold maxAt in *; unfold_handlers;
    split_tests; unfold_handlers; try lia.
  pose proof (hits_max_nonneg (orZero w)) as Hw. unfold maxAt in Hw.
  unfold clamp. lia.
Qed.

Lemma hits_resize_clamps (w : Z) (st : CarouselState) :
  inRange maxAt st ->
  index (PressHitsRail.step W G hits (Resize w) st) = clamp (index st) 0 (maxAt (orZero w)).
Proof.
  destruct st as [i v]. intros Hi. unfold maxAt in *.
  unfold_handlers. split_tests; unfold_handlers.
  - rewrite clamp_fixed; [reflexivity | lia].
  - reflexivity.
Qed.
End PressHitsRailInvariant.

Section PhotoRailInvariant.
Variables W G : Z.
Variable photos : list string.

Let maxAt := PhotoRail.maxIndexAt W G photos.

Lemma photo_max_nonneg (v : Z) : 0 <= maxAt v.
Proof. unfold maxAt, PhotoRail.maxIndexAt, PhotoRail.maxIndex. lia. Qed.

Lemma photo_init_eq : PhotoRail.init W G photos = {| index := 0; viewportW := 0 |}.
Proof.
  unfold_handlers. f_equal. apply clamp_fixed. pose proof (photo_max_nonneg 0).
  unfold maxAt in *. lia.
Qed.

Lemma photo_init_inRange : inRange maxAt (PhotoRail.init W G photos).
Proof.
  rewrite photo_init_eq. unfold_handlers. pose proof (photo_max_nonneg 0). lia.
Qed.

Lemma photo_step_inRange (ev : CarouselEvent) (st : CarouselState) :
  inRange maxAt st -> inRange maxAt (PhotoRail.step W G photos ev st).
Proof.
  destruct st as [i v]. intros Hi.
  pose proof (photo_max_nonneg v) as Hv.
  destruct ev as [| |x|w]; unfold maxAt in *; unfold_handlers;
    split_tests; unfold_handlers; try lia.
  pose proof (photo_max_nonneg (orZero w)) as Hw. unfold maxAt in Hw.
  unfold clamp. lia.
Qed.

Lemma photo_resize_clamps (w : Z) (st : CarouselState) :
  inRange maxAt st ->
  index (PhotoRail.step W G photos (Resize w) st) = clamp (index st) 0 (maxAt (orZero w)).
Proof.
  destruct st as [i v]. intros Hi. unfold maxAt in *.
  unfold_handlers. split_tests; unfold_handlers.
  - rewrite clamp_fixed; [reflexivity | lia].
  - reflexivity.
Qed.
End PhotoRailInvariant.

(** ** The claims about the carousels *)

(** C1.  In each of the three carousels (press carousel, press-hit rail,
    photo rail, with their own sizing constants and any item list), after
    every event of every sequence of clicks, drag releases and resizes,
    0 <= index <= maxIndex; a resize leaves the index clamped into the range
    of the recomputed maximum; and in the press carousel, index 7 at width
    900 (maxIndex 7) becomes index 4 when a resize to width 1600 recomputes
    maxIndex to 4. *)
Theorem carousel_index_in_range :
  (forall items evs,
      Forall (inRange (Page.maxPressIndexAt CARD_WIDTH CARD_GAP items))
        (trace (Page.step CARD_WIDTH CARD_GAP items)
               (Page.init CARD_WIDTH CARD_GAP items) evs)) /\
  (forall hits evs,
      Forall (inRange (PressHitsRail.maxIndexAt HIT_DIAMETER HIT_GAP hits))
        (trace (PressHitsRail.step HIT_DIAMETER HIT_GAP hits)
               (PressHitsRail.init HIT_DIAMETER HIT_GAP hits) evs)) /\
  (forall photos evs,
      Forall (inRange (PhotoRail.maxIndexAt PHOTO_W PHOTO_GAP photos))
        (trace (PhotoRail.step PHOTO_W PHOTO_GAP photos)
               (PhotoRail.init PHOTO_W PHOTO_GAP photos) evs)) /\
  (forall items evs w,
      let st := run (Page.step CARD_WIDTH CARD_GAP items)
                    (Page.init CARD_WIDTH CARD_GAP items) evs in
      index (Page.step CARD_WIDTH CARD_GAP items (Resize w) st) =
      clamp (index st) 0 (Page.maxPressIndexAt CARD_WIDTH CARD_GAP items (orZero w))) /\
  (forall hits evs w,
      let st := run (PressHitsRail.step HIT_DIAMETER HIT_GAP hits)
                    (PressHitsRail.init HIT_DIAMETER HIT_GAP hits) evs in
      index (PressHitsRail.step HIT_DIAMETER HIT_GAP hits (Resize w) st) =
      clamp (index st) 0 (PressHitsRail.maxIndexAt HIT_DIAMETER HIT_GAP hits (orZero w))) /\
  (forall photos evs w,
      let st := run (PhotoRail.step PHOTO_W PHOTO_GAP photos)
                    (PhotoRail.init PHOTO_W PHOTO_GAP photos) evs in
      index (PhotoRail.step PHOTO_W PHOTO_GAP photos (Resize w) st) =
      clamp (index st) 0 (PhotoRail.maxIndexAt PHOTO_W PHOTO_GAP photos (orZero w))) /\
  (let st := run (Page.step CARD_WIDTH CARD_GAP pressItems)
                 (Page.init CARD_WIDTH CARD_GAP pressItems)
                 (Resize 900 :: repeat ClickNext 7) in
   st = {| index := 7; viewportW := 900 |} /\
   Page.maxPressIndexAt CARD_WIDTH CARD_GAP pressItems 900 = 7 /\
   Page.maxPressIndexAt CARD_WIDTH CARD_GAP pressItems 1600 = 4 /\
   Page.step CARD_WIDTH CARD_GAP pressItems (Resize 1600) st =
     {| index := 4; viewportW := 1600 |}).
Proof.
  repeat apply conj.
  - intros items evs. apply trace_Forall.
    + intros ev st. apply page_step_inRange.
    + apply page_init_inRange.
  - intros hits evs. apply trace_Forall.
    + intros ev st. apply hits_step_inRange.
    + apply hits_init_inRange.
  - intros photos evs. apply trace_Forall.
    + intros ev st. apply photo_step_inRange.
    + apply photo_init_inRange.
  - intros items evs w st. apply page_resize_clamps. apply run_invariant.
    + intros ev s. apply page_step_inRange.
    + apply page_init_inRange.
  - intros hits evs w st. apply hits_resize_clamps. apply run_invariant.
    + intros ev s. apply hits_step_inRange.
    + apply hits_init_inRange.
  - intros photos evs w st. apply photo_resize_clamps. apply run_invariant.
    + intros ev s. apply photo_step_inRange.
    + apply photo_init_inRange.
  - vm_compute. reflexivity.
  - vm_compute. reflexivity.
  - vm_compute. reflexivity.
  - vm_compute. reflexivity.
Qed.

(** The visible count of a carousel whose item width is positive and whose
    gap is not negative follows the general formula on every width; on
    width 0 the early return gives the same value, 1. *)
Section VisibleCount.
Variables W G : Z.
Hypothesis W_pos : 0 < W.
Hypothesis G_nonneg : 0 <= G.

Lemma page_visible_formula (v : Z) :
  Page.visibleCount W G v = Z.max 1 (Qfloor (inject_Z (v + G) / inject_Z (W + G))).
Proof.
  unfold Page.visibleCount. destruct (Z.eqb_spec v 0) as [->|_]; [|reflexivity].
  rewrite floor_gap by assumption. reflexivity.
Qed.

Lemma hits_visible_formula (v : Z) :
  PressHitsRail.visibleCount W G v = Z.max 1 (Qfloor (inject_Z (v + G) / inject_Z (W + G))).
Proof.
  unfold PressHitsRail.visibleCount. destruct (Z.eqb_spec v 0) as [->|_]; [|reflexivity].
  rewrite floor_gap by assumption. reflexivity.
Qed.

Lemma photo_visible_formula (v : Z) :
  PhotoRail.visibleCount W G v = Z.max 1 (Qfloor (inject_Z (v + G) / inject_Z (W + G))).
Proof.
  unfold PhotoRail.visibleCount. destruct (Z.eqb_spec v 0) as [->|_]; [|reflexivity].
  rewrite floor_gap by assumption. reflexivity.
Qed.
End VisibleCount.

(** C2.  For every viewport width >= 0, the visible count of each carousel,
    with its own item width and gap (253/16, 72/16, 260/16), equals
    max(1, floor((viewportWidth + gap) / (itemWidth + gap))) and is at
    least 1; on the unmeasured width 0 it is exactly 1. *)
Theorem visible_count_formula (viewportWidth : Z) :
  0 <= viewportWidth ->
  (Page.visibleCount CARD_WIDTH CARD_GAP viewportWidth =
     Z.max 1 (Qfloor (inject_Z (viewportWidth + CARD_GAP) / inject_Z (CARD_WIDTH + CARD_GAP))) /\
   1 <= Page.visibleCount CARD_WIDTH CARD_GAP viewportWidth) /\
  (PressHitsRail.visibleCount HIT_DIAMETER HIT_GAP viewportWidth =
     Z.max 1 (Qfloor (inject_Z (viewportWidth + HIT_GAP) / inject_Z (HIT_DIAMETER + HIT_GAP))) /\
   1 <= PressHitsRail.visibleCount HIT_DIAMETER HIT_GAP viewportWidth) /\
  (PhotoRail.visibleCount PHOTO_W PHOTO_GAP viewportWidth =
     Z.max 1 (Qfloor (inject_Z (viewportWidth + PHOTO_GAP) / inject_Z (PHOTO_W + PHOTO_GAP))) /\
   1 <= PhotoRail.visibleCount PHOTO_W PHOTO_GAP viewportWidth) /\
  (Page.visibleCount CARD_WIDTH CARD_GAP 0 = 1 /\
   PressHitsRail.visibleCount HIT_DIAMETER HIT_GAP 0 = 1 /\
   PhotoRail.visibleCount PHOTO_W PHOTO_GAP 0 = 1).
Proof.
  intros _. repeat apply conj.
  - apply page_visible_formula; reflexivity || discriminate.
  - apply page_visible_pos.
  - apply hits_visible_formula; reflexivity || discriminate.
  - apply hits_visible_pos.
  - apply photo_visible_formula; reflexivity || discriminate.
  - apply photo_visible_pos.
  - reflexivity.
  - reflexivity.
  - reflexivity.
Qed.

Lemma visible_count_formula_witness :
  0 <= 900 /\
  Page.visibleCount CARD_WIDTH CARD_GAP 900 =
    Z.max 1 (Qfloor (inject_Z (900 + CARD_GAP) / inject_Z (CARD_WIDTH + CARD_GAP))).
Proof.
  split; [lia |].
  apply (visible_count_formula 900). lia.
Defined.

(** C3.  For every item list (totalItems >= 0 is its length) and every
    visibleCount >= 1, the maximum index of each carousel is
    max(0, totalItems - visibleCount) and lies between 0 and totalItems; the
    press carousel holds 10 items, at width 900 it shows 3 of them and its
    maximum index is 7. *)
Theorem max_index_formula
    (items : list Page.PressItem) (hits : list PressHit) (photos : list string)
    (visible : Z) :
  1 <= visible ->
  (Page.maxPressIndex items visible = Z.max 0 (Z.of_nat (List.length items) - visible) /\
   0 <= Page.maxPressIndex items visible <= Z.of_nat (List.length items)) /\
  (PressHitsRail.maxIndex hits visible = Z.max 0 (Z.of_nat (List.length hits) - visible) /\
   0 <= PressHitsRail.maxIndex hits visible <= Z.of_nat (List.length hits)) /\
  (PhotoRail.maxIndex photos visible = Z.max 0 (Z.of_nat (List.length photos) - visible) /\
   0 <= PhotoRail.maxIndex photos visible <= Z.of_nat (List.length photos)) /\
  (List.length pressItems = 10%nat /\
   Page.visibleCount CARD_WIDTH CARD_GAP 900 = 3 /\
   Page.maxPressIndex pressItems 3 = 7 /\
   Page.maxPressIndexAt CARD_WIDTH CARD_GAP pressItems 900 = 7).
Proof.
  intros Hvis.
  unfold Page.maxPressIndex, Page.pressCount, PressHitsRail.maxIndex, PhotoRail.maxIndex.
  repeat apply conj; try reflexivity; lia.
Qed.

Lemma max_index_formula_witness :
  1 <= 3 /\ 0 <= Page.maxPressIndex pressItems 3 <= Z.of_nat (List.length pressItems).
Proof.
  split; [lia |].
  apply (max_index_formula pressItems [] [] 3). lia.
Defined.

(** C4.  In every state of each carousel: at index 0 the can-go-back flag is
    false and the backward step (the handler, the left button, a drag to the
    right) leaves the state as it is; at index = maxIndex the can-go-forward
    flag is false and the forward step (the handler, the right button, a
    drag to the left) leaves the state as it is. *)
Theorem boundary_steps_are_noops
    (items : list Page.PressItem) (hits : list PressHit) (photos : list string)
    (st : CarouselState) (d : Q) :
  (index st = 0 ->
     (Page.canPrev st = false /\
      Page.goPrevPress items st = st /\
      Page.step CARD_WIDTH CARD_GAP items ClickPrev st = st /\
      ((60 < d)%Q -> Page.step CARD_WIDTH CARD_GAP items (DragEnd d) st = st)) /\
     (PressHitsRail.canPrev st = false /\
      PressHitsRail.onClickPrev st = st /\
      PressHitsRail.step HIT_DIAMETER HIT_GAP hits ClickPrev st = st /\
      ((60 < d)%Q -> PressHitsRail.step HIT_DIAMETER HIT_GAP hits (DragEnd d) st = st)) /\
     (PhotoRail.canPrev st = false /\
      PhotoRail.onClickPrev st = st /\
      PhotoRail.step PHOTO_W PHOTO_GAP photos ClickPrev st = st /\
      ((60 < d)%Q -> PhotoRail.step PHOTO_W PHOTO_GAP photos (DragEnd d) st = st))) /\
  (index st = Page.maxPressIndexAt CARD_WIDTH CARD_GAP items (viewportW st) ->
     Page.canNext CARD_WIDTH CARD_GAP items st = false /\
     Page.goNextPress CARD_WIDTH CARD_GAP items st = st /\
     Page.step CARD_WIDTH CARD_GAP items ClickNext st = st /\
     ((d < -60)%Q -> Page.step CARD_WIDTH CARD_GAP items (DragEnd d) st = st)) /\
  (index st = PressHitsRail.maxIndexAt HIT_DIAMETER HIT_GAP hits (viewportW st) ->
     PressHitsRail.canNext HIT_DIAMETER HIT_GAP hits st = false /\
     PressHitsRail.onClickNext HIT_DIAMETER HIT_GAP hits st = st /\
     PressHitsRail.step HIT_DIAMETER HIT_GAP hits ClickNext st = st /\
     ((d < -60)%Q -> PressHitsRail.step HIT_DIAMETER HIT_GAP hits (DragEnd d) st = st)) /\
  (index st = PhotoRail.maxIndexAt PHOTO_W PHOTO_GAP photos (viewportW st) ->
     PhotoRail.canNext PHOTO_W PHOTO_GAP photos st = false /\
     PhotoRail.onClickNext PHOTO_W PHOTO_GAP photos st = st /\
     PhotoRail.step PHOTO_W PHOTO_GAP photos ClickNext st = st /\
     ((d < -60)%Q -> PhotoRail.step PHOTO_W PHOTO_GAP photos (DragEnd d) st = st)).
Proof.
  assert (Hright : (60 < d)%Q -> Qltb d (-60) = false).
  { intros H. apply Qltb_ge. apply Qlt_le_weak.
    apply Qlt_trans with (y := 60%Q); [reflexivity | exact H]. }
  assert (Hleft : (d < -60)%Q -> Qltb 60 d = false).
  { intros H. apply Qltb_ge. apply Qlt_le_weak.
    apply Qlt_trans with (y := (-60)%Q); [exact H | reflexivity]. }
  destruct st as [i v]. cbn [index viewportW].
  repeat apply conj; intros Hi; subst i; repeat apply conj;
    try intros Hd; unfold_handlers;
    try rewrite (Hright Hd); try rewrite (Hleft Hd);
    rewrite ?Z.ltb_irrefl; cbn [andb negb];
    split_tests; try reflexivity; f_equal; lia.
Qed.

Lemma boundary_steps_are_noops_witness :
  index {| index := 0; viewportW := 900 |} = 0 /\
  Page.canPrev {| index := 0; viewportW := 900 |} = false /\
  Page.goPrevPress pressItems {| index := 0; viewportW := 900 |} =
    {| index := 0; viewportW := 900 |}.
Proof.
  split; [reflexivity |].
  destruct (proj1 (boundary_steps_are_noops pressItems [] []
                     {| index := 0; viewportW := 900 |} 0) eq_refl)
    as [[Hflag [Hstep _]] _].
  split; [exact Hflag | exact Hstep].
Defined.

(** What the two tests of a drag handler answer, from the position of the
    offset against the two thresholds. *)
Lemma drag_left (d : Q) : (d < -60)%Q -> Qltb d (-60) = true /\ Qltb 60 d = false.
Proof.
  intros H. split; [apply Qltb_lt; exact H |].
  apply Qltb_ge. apply Qlt_le_weak.
  apply Qlt_trans with (y := (-60)%Q); [exact H | reflexivity].
Qed.

Lemma drag_right (d : Q) : (60 < d)%Q -> Qltb d (-60) = false /\ Qltb 60 d = true.
Proof.
  intros H. split; [| apply Qltb_lt; exact H].
  apply Qltb_ge. apply Qlt_le_weak.
  apply Qlt_trans with (y := 60%Q); [reflexivity | exact H].
Qed.

Lemma drag_short (d : Q) :
  (-60 <= d)%Q -> (d <= 60)%Q -> Qltb d (-60) = false /\ Qltb 60 d = false.
Proof. intros H1 H2. split; apply Qltb_ge; assumption. Qed.

(** In range, a legal step of the press carousel implies press items. *)
Lemma page_legal_step_has_press (W G : Z) (items : list Page.PressItem) (st : CarouselState) :
  inRange (Page.maxPressIndexAt W G items) st ->
  0 < index st \/ index st < Page.maxPressIndexAt W G items (viewportW st) ->
  Page.hasPress items = true.
Proof.
  unfold inRange, Page.maxPressIndexAt, Page.maxPressIndex, Page.hasPress.
  intros Hr Hs. pose proof (page_visible_pos W G (viewportW st)).
  apply Z.ltb_lt. lia.
Qed.

(** After the tests on the offset are known, what is left of a drag handler
    is decided by comparing the index with its bounds. *)
Ltac settle_drag E1 E2 :=
  unfold_handlers; rewrite ?E1, ?E2; cbn [andb negb];
  split_tests; try reflexivity; try (f_equal; lia); try lia.

Ltac drag_cases :=
  repeat apply conj;
  [ intros Hd Hi; destruct (drag_left _ Hd) as [E1 E2]
  | intros Hd Hi; destruct (drag_right _ Hd) as [E1 E2]
  | intros [[H1 H2] | [[Hd Hi] | [Hd Hi]]];
    [ destruct (drag_short _ H1 H2) as [E1 E2]
    | destruct (drag_left _ Hd) as [E1 E2]
    | destruct (drag_right _ Hd) as [E1 E2] ] ].

Lemma page_drag (W G : Z) (items : list Page.PressItem) (st : CarouselState) (d : Q) :
  inRange (Page.maxPressIndexAt W G items) st ->
  let maxI := Page.maxPressIndexAt W G items (viewportW st) in
  let st' := Page.step W G items (DragEnd d) st in
  ((d < -60)%Q -> index st < maxI ->
     st' = {| index := index st + 1; viewportW := viewportW st |}) /\
  ((60 < d)%Q -> 0 < index st ->
     st' = {| index := index st - 1; viewportW := viewportW st |}) /\
  (((-60 <= d)%Q /\ (d <= 60)%Q) \/ ((d < -60)%Q /\ maxI <= index st) \/
   ((60 < d)%Q /\ index st <= 0) -> st' = st).
Proof.
  intros Hr maxI st'. subst maxI st'.
  pose proof (page_legal_step_has_press _ _ _ _ Hr) as Hp.
  destruct st as [i v]. cbn [index viewportW] in *.
  drag_cases; try (rewrite Hp by lia); settle_drag E1 E2.
Qed.

Lemma hits_drag (W G : Z) (hits : list PressHit) (st : CarouselState) (d : Q) :
  let maxI := PressHitsRail.maxIndexAt W G hits (viewportW st) in
  let st' := PressHitsRail.step W G hits (DragEnd d) st in
  ((d < -60)%Q -> index st < maxI ->
     st' = {| index := index st + 1; viewportW := viewportW st |}) /\
  ((60 < d)%Q -> 0 < index st ->
     st' = {| index := index st - 1; viewportW := viewportW st |}) /\
  (((-60 <= d)%Q /\ (d <= 60)%Q) \/ ((d < -60)%Q /\ maxI <= index st) \/
   ((60 < d)%Q /\ index st <= 0) -> st' = st).
Proof.
  intros maxI st'. subst maxI st'.
  destruct st as [i v]. cbn [index viewportW] in *.
  drag_cases; settle_drag E1 E2.
Qed.

Lemma photo_drag (W G : Z) (photos : list string) (st : CarouselState) (d : Q) :
  let maxI := PhotoRail.maxIndexAt W G photos (viewportW st) in
  let st' := PhotoRail.step W G photos (DragEnd d) st in
  ((d < -60)%Q -> index st < maxI ->
     st' = {| index := index st + 1; viewportW := viewportW st |}) /\
  ((60 < d)%Q -> 0 < index st ->
     st' = {| index := index st - 1; viewportW := viewportW st |}) /\
  (((-60 <= d)%Q /\ (d <= 60)%Q) \/ ((d < -60)%Q /\ maxI <= index st) \/
   ((60 < d)%Q /\ index st <= 0) -> st' = st).
Proof.
  intros maxI st'. subst maxI st'.
  destruct st as [i v]. cbn [index viewportW] in *.
  drag_cases; settle_drag E1 E2.
Qed.

(** C5.  A drag release with horizontal offset [d], in each carousel (the
    press carousel in a state whose index is in range): if d < -60 and
    index < maxIndex the index grows by exactly 1; if d > 60 and index > 0
    it shrinks by exactly 1; otherwise (|d| <= 60, or the boundary of the
    drag's direction is reached) the state is unchanged.  In the press
    carousel at width 900 (maxIndex 7), offset -80 at index 2 gives index 3
    and offset -40 leaves index 2. *)
Theorem drag_release_steps
    (items : list Page.PressItem) (hits : list PressHit) (photos : list string)
    (st : CarouselState) (d : Q) :
  (inRange (Page.maxPressIndexAt CARD_WIDTH CARD_GAP items) st ->
   let maxI := Page.maxPressIndexAt CARD_WIDTH CARD_GAP items (viewportW st) in
   let st' := Page.step CARD_WIDTH CARD_GAP items (DragEnd d) st in
   ((d < -60)%Q -> index st < maxI ->
      st' = {| index := index st + 1; viewportW := viewportW st |}) /\
   ((60 < d)%Q -> 0 < index st ->
      st' = {| index := index st - 1; viewportW := viewportW st |}) /\
   (((-60 <= d)%Q /\ (d <= 60)%Q) \/ ((d < -60)%Q /\ maxI <= index st) \/
    ((60 < d)%Q /\ index st <= 0) -> st' = st)) /\
  (let maxI := PressHitsRail.maxIndexAt HIT_DIAMETER HIT_GAP hits (viewportW st) in
   let st' := PressHitsRail.step HIT_DIAMETER HIT_GAP hits (DragEnd d) st in
   ((d < -60)%Q -> index st < maxI ->
      st' = {| index := index st + 1; viewportW := viewportW st |}) /\
   ((60 < d)%Q -> 0 < index st ->
      st' = {| index := index st - 1; viewportW := viewportW st |}) /\
   (((-60 <= d)%Q /\ (d <= 60)%Q) \/ ((d < -60)%Q /\ maxI <= index st) \/
    ((60 < d)%Q /\ index st <= 0) -> st' = st)) /\
  (let maxI := PhotoRail.maxIndexAt PHOTO_W PHOTO_GAP photos (viewportW st) in
   let st' := PhotoRail.step PHOTO_W PHOTO_GAP photos (DragEnd d) st in
   ((d < -60)%Q -> index st < maxI ->
      st' = {| index := index st + 1; viewportW := viewportW st |}) /\
   ((60 < d)%Q -> 0 < index st ->
      st' = {| index := index st - 1; viewportW := viewportW st |}) /\
   (((-60 <= d)%Q /\ (d <= 60)%Q) \/ ((d < -60)%Q /\ maxI <= index st) \/
    ((60 < d)%Q /\ index st <= 0) -> st' = st)) /\
  (Page.maxPressIndexAt CARD_WIDTH CARD_GAP pressItems 900 = 7 /\
   Page.step CARD_WIDTH CARD_GAP pressItems (DragEnd (-80)) {| index := 2; viewportW := 900 |} =
     {| index := 3; viewportW := 900 |} /\
   Page.step CARD_WIDTH CARD_GAP pressItems (DragEnd (-40)) {| index := 2; viewportW := 900 |} =
     {| index := 2; viewportW := 900 |}).
Proof.
  split; [| split; [| split]].
  - apply page_drag.
  - apply hits_drag.
  - apply photo_drag.
  - repeat apply conj; vm_compute; reflexivity.
Qed.

Lemma drag_release_steps_witness :
  inRange (Page.maxPressIndexAt CARD_WIDTH CARD_GAP pressItems) {| index := 2; viewportW := 900 |} /\
  (-80 < -60)%Q /\
  2 < Page.maxPressIndexAt CARD_WIDTH CARD_GAP pressItems 900 /\
  Page.step CARD_WIDTH CARD_GAP pressItems (DragEnd (-80)) {| index := 2; viewportW := 900 |} =
    {| index := 2 + 1; viewportW := 900 |}.
Proof.
  assert (Hr : inRange (Page.maxPressIndexAt CARD_WIDTH CARD_GAP pressItems)
                 {| index := 2; viewportW := 900 |})
    by (vm_compute; split; discriminate).
  assert (Hd : (-80 < -60)%Q) by reflexivity.
  assert (Hi : 2 < Page.maxPressIndexAt CARD_WIDTH CARD_GAP pressItems 900) by reflexivity.
  split; [exact Hr | split; [exact Hd | split; [exact Hi |]]].
  exact (proj1 (proj1 (drag_release_steps pressItems [] []
                         {| index := 2; viewportW := 900 |} (-80)) Hr) Hd Hi).
Defined.

(** ** Empty item lists *)

Lemma page_empty_run (W G : Z) (evs : list CarouselEvent) (st : CarouselState) :
  run (Page.step W G []) st evs = st.
Proof.
  unfold run. induction evs as [|ev evs IH]; simpl; [reflexivity | exact IH].
Qed.

Lemma hits_empty_max (W G v : Z) : PressHitsRail.maxIndexAt W G [] v = 0.
Proof.
  unfold PressHitsRail.maxIndexAt, PressHitsRail.maxIndex.
  pose proof (hits_visible_pos W G v). cbn [List.length]. lia.
Qed.

Lemma photo_empty_max (W G v : Z) : PhotoRail.maxIndexAt W G [] v = 0.
Proof.
  unfold PhotoRail.maxIndexAt, PhotoRail.maxIndex.
  pose proof (photo_visible_pos W G v). cbn [List.length]. lia.
Qed.

Lemma hits_empty_state (W G : Z) (st : CarouselState) :
  inRange (PressHitsRail.maxIndexAt W G []) st ->
  index st = 0 /\
  PressHitsRail.maxIndexAt W G [] (viewportW st) = 0 /\
  PressHitsRail.canPrev st = false /\
  PressHitsRail.canNext W G [] st = false /\
  PressHitsRail.onClickPrev st = st /\
  PressHitsRail.onClickNext W G [] st = st /\
  (forall ev, index (PressHitsRail.step W G [] ev st) = 0).
Proof.
  intros Hr. assert (Hstep := fun ev => hits_step_inRange W G [] ev st Hr).
  unfold inRange in *. destruct st as [i v]. cbn [index viewportW] in *.
  assert (Hm := hits_empty_max W G).
  rewrite Hm in Hr. assert (i = 0) by lia. subst i.
  repeat apply conj; try reflexivity; try apply Hm.
  - unfold_handlers. rewrite Hm. reflexivity.
  - unfold_handlers. rewrite Hm. reflexivity.
  - intros ev. specialize (Hstep ev). rewrite Hm in Hstep. lia.
Qed.

Lemma photo_empty_state (W G : Z) (st : CarouselState) :
  inRange (PhotoRail.maxIndexAt W G []) st ->
  index st = 0 /\
  PhotoRail.maxIndexAt W G [] (viewportW st) = 0 /\
  PhotoRail.canPrev st = false /\
  PhotoRail.canNext W G [] st = false /\
  PhotoRail.onClickPrev st = st /\
  PhotoRail.onClickNext W G [] st = st /\
  (forall ev, index (PhotoRail.step W G [] ev st) = 0).
Proof.
  intros Hr. assert (Hstep := fun ev => photo_step_inRange W G [] ev st Hr).
  unfold inRange in *. destruct st as [i v]. cbn [index viewportW] in *.
  assert (Hm := photo_empty_max W G).
  rewrite Hm in Hr. assert (i = 0) by lia. subst i.
  repeat apply conj; try reflexivity; try apply Hm.
  - unfold_handlers. rewrite Hm. reflexivity.
  - unfold_handlers. rewrite Hm. reflexivity.
  - intros ev. specialize (Hstep ev). rewrite Hm in Hstep. lia.
Qed.

(** C8.  For an empty item list, after any sequence of events, the
    carousel has visibleCount = 1, maxIndex = 0 and index = 0, both nav
    flags are false and both steps (and every event) leave the state as it
    is.  The press carousel is the carousel that an empty list can reach;
    [TimelineEntry], the one caller of the two rails, renders a rail for a
    non-empty list only.  Were a rail given an empty list, its index and
    maximum index would be 0 as well, its flags false and its steps
    no-ops, and its visibleCount 1 at mount. *)
Theorem empty_list_carousel (evs : list CarouselEvent) :
  (let st := run (Page.step CARD_WIDTH CARD_GAP []) (Page.init CARD_WIDTH CARD_GAP []) evs in
   st = {| index := 0; viewportW := 0 |} /\
   Page.visibleCount CARD_WIDTH CARD_GAP (viewportW st) = 1 /\
   Page.maxPressIndexAt CARD_WIDTH CARD_GAP [] (viewportW st) = 0 /\
   Page.canPrev st = false /\
   Page.canNext CARD_WIDTH CARD_GAP [] st = false /\
   Page.goPrevPress [] st = st /\
   Page.goNextPress CARD_WIDTH CARD_GAP [] st = st /\
   (forall ev, Page.step CARD_WIDTH CARD_GAP [] ev st = st)) /\
  (forall item, pressHitsRailOf item <> Some [] /\ photoRailOf item <> Some []) /\
  (let st := run (PressHitsRail.step HIT_DIAMETER HIT_GAP [])
                 (PressHitsRail.init HIT_DIAMETER HIT_GAP []) evs in
   index st = 0 /\
   PressHitsRail.maxIndexAt HIT_DIAMETER HIT_GAP [] (viewportW st) = 0 /\
   PressHitsRail.canPrev st = false /\
   PressHitsRail.canNext HIT_DIAMETER HIT_GAP [] st = false /\
   PressHitsRail.onClickPrev st = st /\
   PressHitsRail.onClickNext HIT_DIAMETER HIT_GAP [] st = st /\
   (forall ev, index (PressHitsRail.step HIT_DIAMETER HIT_GAP [] ev st) = 0)) /\
  (let st := run (PhotoRail.step PHOTO_W PHOTO_GAP [])
                 (PhotoRail.init PHOTO_W PHOTO_GAP []) evs in
   index st = 0 /\
   PhotoRail.maxIndexAt PHOTO_W PHOTO_GAP [] (viewportW st) = 0 /\
   PhotoRail.canPrev st = false /\
   PhotoRail.canNext PHOTO_W PHOTO_GAP [] st = false /\
   PhotoRail.onClickPrev st = st /\
   PhotoRail.onClickNext PHOTO_W PHOTO_GAP [] st = st /\
   (forall ev, index (PhotoRail.step PHOTO_W PHOTO_GAP [] ev st) = 0)) /\
  (PressHitsRail.visibleCount HIT_DIAMETER HIT_GAP
     (viewportW (PressHitsRail.init HIT_DIAMETER HIT_GAP [])) = 1 /\
   PhotoRail.visibleCount PHOTO_W PHOTO_GAP
     (viewportW (PhotoRail.init PHOTO_W PHOTO_GAP [])) = 1).
Proof.
  split; [| split; [| split; [| split]]].
  - rewrite page_empty_run. repeat apply conj; try reflexivity.
  - intros item. split.
    + unfold pressHitsRailOf. destruct (pressHitsOf item); cbn; congruence.
    + unfold photoRailOf. destruct (photosOf item); cbn; congruence.
  - apply hits_empty_state. apply run_invariant.
    + intros ev s. apply hits_step_inRange.
    + apply hits_init_inRange.
  - apply photo_empty_state. apply run_invariant.
    + intros ev s. apply photo_step_inRange.
    + apply photo_init_inRange.
  - split; reflexivity.
Qed.

(** ** The three copies of the pagination logic *)

Lemma trace_agree {S E : Type} (step1 step2 : E -> S -> S) (P : S -> Prop) :
  (forall ev st, P st -> P (step1 ev st)) ->
  (forall ev st, P st -> step2 ev st = step1 ev st) ->
  forall evs st, P st -> trace step2 st evs = trace step1 st evs.
Proof.
  intros Hinv Heq evs. induction evs as [|ev evs IH]; intros st Hst; simpl.
  - reflexivity.
  - rewrite (Heq ev st Hst). f_equal. apply IH. apply Hinv. exact Hst.
Qed.

Section SameSizing.
Variables W G : Z.
Variable items : list Page.PressItem.
Variable hits : list PressHit.
Variable photos : list string.
Hypothesis hits_count : List.length hits = List.length items.
Hypothesis photos_count : List.length photos = List.length items.

Lemma hits_max_same (v : Z) :
  PressHitsRail.maxIndexAt W G hits v = Page.maxPressIndexAt W G items v.
Proof.
  unfold PressHitsRail.maxIndexAt, PressHitsRail.maxIndex, Page.maxPressIndexAt,
    Page.maxPressIndex, Page.pressCount.
  rewrite hits_count. reflexivity.
Qed.

Lemma photo_max_same (v : Z) :
  PhotoRail.maxIndexAt W G photos v = Page.maxPressIndexAt W G items v.
Proof.
  unfold PhotoRail.maxIndexAt, PhotoRail.maxIndex, Page.maxPressIndexAt,
    Page.maxPressIndex, Page.pressCount.
  rewrite photos_count. reflexivity.
Qed.

(** On a state whose index is in range, the rail's handlers and the
    page's return the same state: the page's [hasPress] guard only fires
    where the rail's step is a no-op too, and a drag only steps where the
    rail's unclamped [v + 1] or [v - 1] stays within the clamp. *)
Lemma hits_handlers_same (st : CarouselState) :
  inRange (Page.maxPressIndexAt W G items) st ->
  PressHitsRail.onClickPrev st = Page.goPrevPress items st /\
  PressHitsRail.onClickNext W G hits st = Page.goNextPress W G items st /\
  (forall d, PressHitsRail.onDragEnd W G hits d st = Page.onDragEnd W G items d st) /\
  (forall w, PressHitsRail.update W G hits w st = Page.update W G items w st) /\
  (forall ev, PressHitsRail.handle W G hits ev st = Page.handle W G items ev st).
Proof using hits_count.
  clear photos_count.
  intros Hr. pose proof (page_legal_step_has_press _ _ _ _ Hr) as Hp.
  pose proof (page_visible_pos W G (viewportW st)) as Hv.
  assert (Hz : Page.hasPress items = false ->
               Page.maxPressIndexAt W G items (viewportW st) = 0).
  { unfold Page.hasPress, Page.maxPressIndexAt, Page.maxPressIndex.
    intros H. apply Z.ltb_ge in H. lia. }
  destruct st as [i v]. unfold inRange in Hr. cbn [index viewportW] in *.
  repeat apply conj; [| | intros d | intros w | intros [| |d|w]];
    unfold_handlers; rewrite ?hits_max_same; split_tests;
    try reflexivity; try (f_equal; lia);
    try (rewrite Hp in * by lia; discriminate);
    try (f_equal; rewrite Hz in * by assumption; lia).
Qed.

Lemma photo_handlers_same (st : CarouselState) :
  inRange (Page.maxPressIndexAt W G items) st ->
  PhotoRail.onClickPrev st = Page.goPrevPress items st /\
  PhotoRail.onClickNext W G photos st = Page.goNextPress W G items st /\
  (forall d, PhotoRail.onDragEnd W G photos d st = Page.onDragEnd W G items d st) /\
  (forall w, PhotoRail.update W G photos w st = Page.update W G items w st) /\
  (forall ev, PhotoRail.handle W G photos ev st = Page.handle W G items ev st).
Proof using photos_count.
  clear hits_count.
  intros Hr. pose proof (page_legal_step_has_press _ _ _ _ Hr) as Hp.
  pose proof (page_visible_pos W G (viewportW st)) as Hv.
  assert (Hz : Page.hasPress items = false ->
               Page.maxPressIndexAt W G items (viewportW st) = 0).
  { unfold Page.hasPress, Page.maxPressIndexAt, Page.maxPressIndex.
    intros H. apply Z.ltb_ge in H. lia. }
  destruct st as [i v]. unfold inRange in Hr. cbn [index viewportW] in *.
  repeat apply conj; [| | intros d | intros w | intros [| |d|w]];
    unfold_handlers; rewrite ?photo_max_same; split_tests;
    try reflexivity; try (f_equal; lia);
    try (rewrite Hp in * by lia; discriminate);
    try (f_equal; rewrite Hz in * by assumption; lia).
Qed.
End SameSizing.

(** C9.  Given the same item width, gap and item count, the three copies
    compute the same visibleCount and maxIndex from a viewport width and the
    same flags from a state; on every state whose index is in range their
    click, drag-release and resize handlers return the same state; and from
    mount they pass through the same states on every sequence of events.
    The same holds of the carousels as rendered when there are items (the
    press carousel renders nothing, and receives no event, without). *)
Theorem three_copies_agree
    (W G : Z) (items : list Page.PressItem) (hits : list PressHit) (photos : list string) :
  List.length hits = List.length items ->
  List.length photos = List.length items ->
  (forall v,
     PressHitsRail.visibleCount W G v = Page.visibleCount W G v /\
     PhotoRail.visibleCount W G v = Page.visibleCount W G v) /\
  (forall visible,
     PressHitsRail.maxIndex hits visible = Page.maxPressIndex items visible /\
     PhotoRail.maxIndex photos visible = Page.maxPressIndex items visible) /\
  (forall st,
     PressHitsRail.canPrev st = Page.canPrev st /\
     PhotoRail.canPrev st = Page.canPrev st /\
     PressHitsRail.canNext W G hits st = Page.canNext W G items st /\
     PhotoRail.canNext W G photos st = Page.canNext W G items st) /\
  (forall st,
     inRange (Page.maxPressIndexAt W G items) st ->
     (PressHitsRail.onClickPrev st = Page.goPrevPress items st /\
      PressHitsRail.onClickNext W G hits st = Page.goNextPress W G items st /\
      (forall d, PressHitsRail.onDragEnd W G hits d st = Page.onDragEnd W G items d st) /\
      (forall w, PressHitsRail.update W G hits w st = Page.update W G items w st)) /\
     (PhotoRail.onClickPrev st = Page.goPrevPress items st /\
      PhotoRail.onClickNext W G photos st = Page.goNextPress W G items st /\
      (forall d, PhotoRail.onDragEnd W G photos d st = Page.onDragEnd W G items d st) /\
      (forall w, PhotoRail.update W G photos w st = Page.update W G items w st))) /\
  (forall evs,
     trace (PressHitsRail.handle W G hits) (PressHitsRail.init W G hits) evs =
       trace (Page.handle W G items) (Page.init W G items) evs /\
     trace (PhotoRail.handle W G photos) (PhotoRail.init W G photos) evs =
       trace (Page.handle W G items) (Page.init W G items) evs) /\
  (items <> [] ->
   forall evs,
     trace (PressHitsRail.step W G hits) (PressHitsRail.init W G hits) evs =
       trace (Page.step W G items) (Page.init W G items) evs /\
     trace (PhotoRail.step W G photos) (PhotoRail.init W G photos) evs =
       trace (Page.step W G items) (Page.init W G items) evs).
Proof.
  intros Hh Hp.
  assert (Htrace : forall evs,
     trace (PressHitsRail.handle W G hits) (PressHitsRail.init W G hits) evs =
       trace (Page.handle W G items) (Page.init W G items) evs /\
     trace (PhotoRail.handle W G photos) (PhotoRail.init W G photos) evs =
       trace (Page.handle W G items) (Page.init W G items) evs).
  { intros evs. rewrite hits_init_eq, photo_init_eq, <- (page_init_eq W G items).
    split; apply trace_agree with (P := inRange (Page.maxPressIndexAt W G items));
      try apply page_handle_inRange; try apply page_init_inRange.
    - intros ev st Hst. apply (hits_handlers_same W G items hits Hh st Hst).
    - intros ev st Hst. apply (photo_handlers_same W G items photos Hp st Hst). }
  repeat apply conj.
  - intros v. split; reflexivity.
  - intros visible.
    unfold PressHitsRail.maxIndex, PhotoRail.maxIndex, Page.maxPressIndex, Page.pressCount.
    rewrite Hh, Hp. split; reflexivity.
  - intros st. unfold PressHitsRail.canNext, PhotoRail.canNext, Page.canNext.
    rewrite (hits_max_same W G items hits Hh), (photo_max_same W G items photos Hp).
    repeat split; reflexivity.
  - intros st Hst. split.
    + destruct (hits_handlers_same W G items hits Hh st Hst) as (H1 & H2 & H3 & H4 & _).
      repeat split; assumption.
    + destruct (photo_handlers_same W G items photos Hp st Hst) as (H1 & H2 & H3 & H4 & _).
      repeat split; assumption.
  - exact Htrace.
  - intros Hne evs.
    replace (Page.step W G items) with (Page.handle W G items); [apply Htrace |].
    unfold Page.step. destruct items as [|x l]; [contradiction | reflexivity].
Qed.

Lemma three_copies_agree_witness :
  List.length DEFAULT_COMMS_PRESS_HITS = List.length (firstn 9 pressItems) /\
  List.length (map logo DEFAULT_COMMS_PRESS_HITS) = List.length (firstn 9 pressItems) /\
  forall evs,
    trace (PressHitsRail.handle CARD_WIDTH CARD_GAP DEFAULT_COMMS_PRESS_HITS)
          (PressHitsRail.init CARD_WIDTH CARD_GAP DEFAULT_COMMS_PRESS_HITS) evs =
    trace (Page.handle CARD_WIDTH CARD_GAP (firstn 9 pressItems))
          (Page.init CARD_WIDTH CARD_GAP (firstn 9 pressItems)) evs.
Proof.
  split; [reflexivity | split; [reflexivity |]].
  intros evs.
  exact (proj1 (proj1 (proj2 (proj2 (proj2 (proj2
    (three_copies_agree CARD_WIDTH CARD_GAP (firstn 9 pressItems)
       DEFAULT_COMMS_PRESS_HITS (map logo DEFAULT_COMMS_PRESS_HITS)
       eq_refl eq_refl))))) evs)).
Defined.

(** ** Year grouping *)

(** [order[y]], for [y] among [Object.keys(order)], is the predicate listed
    with [y]: reading the predicate through the key, as the source does,
    builds the same object, whatever would stand for a missing key. *)
Lemma order_lookup (entries : list ExperienceItem) (missing : ExperienceItem -> bool) :
  groupByYear entries =
  fromEntries (map (fun y => (y, filter (nullish (obj_get y order) missing) entries))
                   (keys order)).
Proof. reflexivity. Qed.

(** Integer-like keys are enumerated in ascending order, whatever the order
    of the literal. *)
Lemma order_keys :
  keys order = ["2021"; "2022"; "2023"; "2024"; "2025"]%string.
Proof. reflexivity. Qed.

Lemma groupByYear_buckets (entries : list ExperienceItem) :
  groupByYear entries = map (fun yp => (fst yp, filter (snd yp) entries)) order.
Proof. reflexivity. Qed.

Lemma groupByYear_values (entries : list ExperienceItem) :
  map snd (groupByYear entries) = map (fun p => filter p entries) (map snd order).
Proof. reflexivity. Qed.

Section Buckets.
Context {A : Type}.
Implicit Types (preds : list (A -> bool)) (l : list A).

Lemma buckets_cons preds x l :
  Permutation (List.concat (map (fun p => filter p (x :: l)) preds))
              (repeat x (accepting preds x) ++ List.concat (map (fun p => filter p l) preds)).
Proof.
  unfold accepting. induction preds as [|p preds IH]; simpl.
  - constructor.
  - destruct (p x); simpl.
    + constructor. rewrite IH.
      rewrite !app_assoc. apply Permutation_app_tail. apply Permutation_app_comm.
    + rewrite IH. rewrite !app_assoc. apply Permutation_app_tail.
      apply Permutation_app_comm.
Qed.

(** When every element is accepted by exactly one predicate, the buckets
    together hold each element once. *)
Lemma buckets_partition preds l :
  Forall (fun x => accepting preds x = 1%nat) l ->
  Permutation (List.concat (map (fun p => filter p l) preds)) l.
Proof.
  induction 1 as [|x l Hx Hl IH].
  - induction preds as [|p preds IHp]; simpl; [constructor | exact IHp].
  - rewrite buckets_cons, Hx. simpl. constructor. exact IH.
Qed.
End Buckets.

Lemma unique_key_value {K V : Type} (l : list (K * V)) (k : K) (v v' : V) :
  NoDup (map fst l) -> In (k, v) l -> In (k, v') l -> v = v'.
Proof.
  induction l as [|[k0 v0] l IH]; simpl; intros Hnd H1 H2; [contradiction |].
  inversion Hnd as [|? ? Hnot Hnd']; subst.
  destruct H1 as [H1|H1], H2 as [H2|H2].
  - congruence.
  - inversion H1; subst. exfalso. apply Hnot.
    apply in_map_iff. exists (k, v'). split; [reflexivity | exact H2].
  - inversion H2; subst. exfalso. apply Hnot.
    apply in_map_iff. exists (k, v). split; [reflexivity | exact H1].
  - apply IH; assumption.
Qed.

Lemma order_keys_distinct : NoDup (keys order).
Proof.
  rewrite order_keys.
  repeat constructor; simpl; intuition discriminate.
Qed.

(** An entry is in the bucket of a year exactly when it is in the list and
    the year's predicate accepts it. *)
Lemma bucket_membership (entries : list ExperienceItem)
    (y : string) (bucket : list ExperienceItem) (e : ExperienceItem) :
  In (y, bucket) (groupByYear entries) ->
  (In e bucket <-> In e entries /\ In y (matchingYears e)).
Proof.
  rewrite groupByYear_buckets. intros H.
  apply in_map_iff in H as [[y0 p] [Heq Hin]]. simpl in Heq.
  injection Heq as Hy Hb. subst y bucket. rewrite filter_In.
  unfold matchingYears, keys. split.
  - intros [He Hp]. split; [exact He |].
    apply in_map_iff. exists (y0, p). split; [reflexivity |].
    apply filter_In. split; assumption.
  - intros [He Hy]. split; [exact He |].
    apply in_map_iff in Hy as [[y' p'] [Hy' Hin']]. simpl in Hy'. subst y'.
    apply filter_In in Hin' as [Hin' Hp']. simpl in Hp'.
    rewrite (unique_key_value order y0 p p' order_keys_distinct Hin Hin').
    exact Hp'.
Qed.

Lemma raw_distinct : NoDup raw.
Proof.
  apply (NoDup_map_inv role). 
  repeat constructor; simpl; intuition discriminate.
Qed.

(** C6.  Each of the 8 entries of [raw] is accepted by exactly one of the
    five year predicates; so it is in the bucket of that year and of no
    other, and the buckets of [experienceByYear] together hold the entries
    of [raw], each one once: none is dropped and none is duplicated. *)
Theorem every_entry_in_one_year_bucket :
  List.length raw = 8%nat /\
  keys experienceByYear = ["2021"; "2022"; "2023"; "2024"; "2025"]%string /\
  map matchingYears raw =
    [["2025"]; ["2025"]; ["2025"]; ["2024"]; ["2024"]; ["2023"]; ["2022"]; ["2021"]]%string /\
  Forall (fun e => accepting (map snd order) e = 1%nat) raw /\
  (forall e, In e raw ->
     exists y, forall y' bucket,
       In (y', bucket) experienceByYear -> (In e bucket <-> y' = y)) /\
  Permutation (List.concat (map snd experienceByYear)) raw /\
  NoDup (List.concat (map snd experienceByYear)).
Proof.
  assert (Hone : Forall (fun e => accepting (map snd order) e = 1%nat) raw)
    by (repeat constructor).
  assert (Hyears : map matchingYears raw =
    [["2025"]; ["2025"]; ["2025"]; ["2024"]; ["2024"]; ["2023"]; ["2022"]; ["2021"]]%string)
    by reflexivity.
  assert (Hperm : Permutation (List.concat (map snd experienceByYear)) raw).
  { unfold experienceByYear. rewrite groupByYear_values.
    apply buckets_partition. exact Hone. }
  repeat apply conj.
  - reflexivity.
  - reflexivity.
  - exact Hyears.
  - exact Hone.
  - intros e He.
    assert (Hy : exists y, matchingYears e = [y]).
    { apply (in_map matchingYears) in He. rewrite Hyears in He.
      simpl in He. 
      repeat (destruct He as [He|He]; [eexists; symmetry; exact He |]).
      contradiction. }
    destruct Hy as [y Hy]. exists y. intros y' bucket Hin.
    rewrite (bucket_membership raw y' bucket e Hin), Hy. simpl.
    intuition congruence.
  - exact Hperm.
  - apply (Permutation_NoDup (Permutation_sym Hperm)). exact raw_distinct.
Qed.

(** ** The flattened list of [buildItems] *)

(** Sorting the keys puts the latest year first; [buildItems] then lists
    the buckets in that order. *)
Lemma buildItems_blocks (entries : list ExperienceItem) :
  buildItemsFrom (groupByYear entries) = yearBlocks (rev order) entries.
Proof. reflexivity. Qed.

Lemma StronglySorted_app {A : Type} (R : A -> A -> Prop) (l1 l2 : list A) :
  StronglySorted R l1 -> StronglySorted R l2 ->
  (forall a b, In a l1 -> In b l2 -> R a b) ->
  StronglySorted R (l1 ++ l2).
Proof.
  intros H1 H2 Hcross. induction H1 as [|a l1 Hl1 IH Ha]; simpl.
  - exact H2.
  - constructor.
    + apply IH. intros x y Hx Hy. apply Hcross; [right; exact Hx | exact Hy].
    + apply Forall_app. split; [exact Ha |].
      apply Forall_forall. intros y Hy. apply Hcross; [left; reflexivity | exact Hy].
Qed.

Section YearBlocks.
Variable entries : list ExperienceItem.
Implicit Types (ys : list (string * (ExperienceItem -> bool))).

Lemma yearBlocks_cons yp ys :
  yearBlocks (yp :: ys) entries =
  map (fun item => {| entry := item; year := fst yp |}) (filter (snd yp) entries)
  ++ yearBlocks ys entries.
Proof. reflexivity. Qed.

Lemma in_yearBlocks ys x :
  In x (yearBlocks ys entries) -> In (year x) (map fst ys).
Proof.
  unfold yearBlocks. rewrite in_flat_map. intros [yp [Hyp Hx]].
  apply in_map_iff in Hx as [item [<- _]]. simpl.
  apply in_map. exact Hyp.
Qed.

Lemma one_block_sorted (y : string) (l : list ExperienceItem) :
  StronglySorted yearsDescend (map (fun item => {| entry := item; year := y |}) l).
Proof.
  induction l as [|e l IH]; simpl; constructor; [exact IH |].
  apply Forall_forall. intros x Hx. apply in_map_iff in Hx as [item [<- _]].
  left. reflexivity.
Qed.

(** Years listed in strictly descending numeric order give a list whose
    buckets follow one another in that order. *)
Lemma yearBlocks_descend ys :
  StronglySorted laterYear (map fst ys) ->
  StronglySorted yearsDescend (yearBlocks ys entries).
Proof.
  induction ys as [|yp ys IH]; intros Hs.
  - constructor.
  - simpl in Hs. inversion Hs as [|? ? Hs' Hall]; subst.
    rewrite yearBlocks_cons. apply StronglySorted_app.
    + apply one_block_sorted.
    + apply IH. exact Hs'.
    + intros a b Ha Hb. apply in_map_iff in Ha as [item [<- _]].
      apply in_yearBlocks in Hb. rewrite Forall_forall in Hall.
      right. exact (Hall _ Hb).
Qed.

Lemma bucketOf_app y (l1 l2 : list ExperienceWithYear) :
  bucketOf y (l1 ++ l2) = bucketOf y l1 ++ bucketOf y l2.
Proof. unfold bucketOf. rewrite filter_app, map_app. reflexivity. Qed.

Lemma bucketOf_own_block y (l : list ExperienceItem) :
  bucketOf y (map (fun item => {| entry := item; year := y |}) l) = l.
Proof.
  unfold bucketOf. induction l as [|e l IH]; simpl; [reflexivity |].
  rewrite String.eqb_refl. simpl. rewrite IH. reflexivity.
Qed.

Lemma bucketOf_other_block y y' (l : list ExperienceItem) :
  y' <> y ->
  bucketOf y (map (fun item => {| entry := item; year := y' |}) l) = [].
Proof.
  intros Hne. unfold bucketOf. induction l as [|e l IH]; simpl; [reflexivity |].
  apply String.eqb_neq in Hne. rewrite Hne. exact IH.
Qed.

Lemma bucketOf_absent y ys :
  ~ In y (map fst ys) -> bucketOf y (yearBlocks ys entries) = [].
Proof.
  induction ys as [|yp ys IH]; intros Hn; [reflexivity |].
  simpl in Hn.
  rewrite yearBlocks_cons, bucketOf_app, bucketOf_other_block, IH; intuition.
Qed.

(** Within the bucket of a year, the entries are those the year's
    predicate accepts, in the order of the source list. *)
Lemma bucketOf_yearBlocks ys yp :
  NoDup (map fst ys) -> In yp ys ->
  bucketOf (fst yp) (yearBlocks ys entries) = filter (snd yp) entries.
Proof.
  induction ys as [|yq ys IH]; intros Hnd Hin; [contradiction |].
  simpl in Hnd, Hin.
  inversion Hnd as [|? ? Hnot Hnd']; subst.
  rewrite yearBlocks_cons, bucketOf_app. destruct Hin as [-> | Hin].
  - rewrite bucketOf_own_block, bucketOf_absent by assumption.
    apply app_nil_r.
  - rewrite bucketOf_other_block, IH by
      (try assumption; intros E; apply Hnot; rewrite E; apply in_map; exact Hin).
    reflexivity.
Qed.
End YearBlocks.

Lemma sorted_years :
  map fst (rev order) = ["2025"; "2024"; "2023"; "2022"; "2021"]%string.
Proof. reflexivity. Qed.

Lemma sorted_years_descend : StronglySorted laterYear (map fst (rev order)).
Proof.
  rewrite sorted_years.
  repeat match goal with
    | |- StronglySorted _ _ => constructor
    | |- Forall _ _ => constructor
    | |- laterYear _ _ => do 2 eexists; split; [reflexivity | split; reflexivity]
    end.
Qed.

Lemma sorted_years_distinct : NoDup (map fst (rev order)).
Proof.
  rewrite sorted_years.
  repeat constructor; simpl; intuition discriminate.
Qed.

(** C7.  For the raw list, and for any list in its place, [buildItems]
    lists the year buckets in strictly descending numeric order of their
    year (2025, 2024, 2023, 2022, 2021): of two items, the one listed first
    is of the same year or of a later one.  The bucket of a year holds the
    entries that the year's predicate accepts, in the order of the source
    list.  The list is a function of the data; for [raw] it is the list of
    8 items given last. *)
Theorem build_items_order (entries : list ExperienceItem) :
  let items := buildItemsFrom (groupByYear entries) in
  sortBy byYearDescending (keys (groupByYear entries)) =
    ["2025"; "2024"; "2023"; "2022"; "2021"]%string /\
  StronglySorted yearsDescend items /\
  Forall (fun x => In (year x) (keys order)) items /\
  Forall (fun yp => bucketOf (fst yp) items = filter (snd yp) entries) order /\
  map (fun x => (year x, role (entry x))) buildItems =
    [ ("2025", "Fulbright Scholar");
      ("2025", "ChatGPT Lab Member");
      ("2025", "AI and Emerging Tech Research Fellow");
      ("2024", "Social Impact Communications and Strategy");
      ("2024", "Freelance Communications Strategy Consultant");
      ("2023", "Communications Director and Transition Aide");
      ("2022", "Digital Communications, Logistics, and Strategy");
      ("2021", "Research Assistant") ]%string /\
  map entry buildItems =
    filter (fun i => includes (role i) "Fulbright" || includes (role i) "ChatGPT Lab"
                     || includes (role i) "Emerging Tech") raw ++
    filter (fun i => includes (role i) "Social Impact"
                     || includes (role i) "Freelance Communications") raw ++
    filter (fun i => includes (role i) "Communications Director") raw ++
    filter (fun i => includes (role i) "Digital Communications") raw ++
    filter (fun i => includes (role i) "Research Assistant") raw.
Proof.
  intros items. subst items. rewrite buildItems_blocks.
  repeat apply conj.
  - reflexivity.
  - apply yearBlocks_descend. exact sorted_years_descend.
  - apply Forall_forall. intros x Hx. apply in_yearBlocks in Hx.
    unfold keys. rewrite map_rev in Hx. apply in_rev in Hx. exact Hx.
  - apply Forall_forall. intros yp Hyp.
    apply bucketOf_yearBlocks; [exact sorted_years_distinct |].
    apply -> in_rev. exact Hyp.
  - reflexivity.
  - reflexivity.
Qed.

(** ** The press hits of a timeline entry *)

Lemma isCommsDirector_spec (item : ExperienceWithYear) :
  isCommsDirector item = true <->
  includes (toLowerCase (role (entry item))) "communications director" = true \/
  includes (toLowerCase (org (entry item))) "house of representatives" = true.
Proof. unfold isCommsDirector. apply orb_true_iff. Qed.

(** C10.  For every timeline entry: a non-empty [pressHits] list of its own
    is what the rail receives; when the list is absent (undefined or null)
    or empty, the rail receives the 9 default comms press hits exactly when
    the lowercased role contains "communications director" or the
    lowercased org contains "house of representatives", and no rail is
    rendered otherwise.  Of the 8 entries of the timeline, the sixth alone
    gets a rail, with the 9 hits of its own list. *)
Theorem press_hits_fallback (item : ExperienceWithYear) :
  (forall own, pressHits (entry item) = present own -> own <> [] ->
     pressHitsRailOf item = Some own) /\
  (pressHits (entry item) = undefined \/ pressHits (entry item) = null \/
   pressHits (entry item) = present [] ->
     (pressHitsRailOf item = Some DEFAULT_COMMS_PRESS_HITS <->
        includes (toLowerCase (role (entry item))) "communications director" = true \/
        includes (toLowerCase (org (entry item))) "house of representatives" = true) /\
     (pressHitsRailOf item = None <->
        includes (toLowerCase (role (entry item))) "communications director" = false /\
        includes (toLowerCase (org (entry item))) "house of representatives" = false)) /\
  List.length DEFAULT_COMMS_PRESS_HITS = 9%nat /\
  map (fun x => option_map (@List.length PressHit) (pressHitsRailOf x)) buildItems =
    [None; None; None; None; None; Some 9%nat; None; None] /\
  map pressHitsRailOf buildItems =
    map (fun x => match pressHits (entry x) with present own => Some own | _ => None end)
        buildItems.
Proof.
  repeat apply conj; try reflexivity.
  - intros own Hown Hne. unfold pressHitsRailOf, pressHitsOf. rewrite Hown.
    destruct own as [|h t]; [contradiction | reflexivity].
  - intros Habsent.
    assert (Hfall : pressHitsOf item =
                    if isCommsDirector item then DEFAULT_COMMS_PRESS_HITS else []).
    { unfold pressHitsOf. destruct Habsent as [-> | [-> | ->]]; reflexivity. }
    unfold pressHitsRailOf. rewrite Hfall.
    rewrite <- isCommsDirector_spec, <- orb_false_iff.
    fold (isCommsDirector item).
    destruct (isCommsDirector item); cbn; split; split; congruence.
Qed.

Lemma press_hits_fallback_witness :
  pressHits (entry commsEntryWithoutHits) = undefined /\
  includes (toLowerCase (role (entry commsEntryWithoutHits))) "communications director" = true /\
  pressHitsRailOf commsEntryWithoutHits = Some DEFAULT_COMMS_PRESS_HITS.
Proof.
  split; [reflexivity | split; [reflexivity |]].
  apply (proj1 (proj2 (press_hits_fallback commsEntryWithoutHits))).
  - left. reflexivity.
  - left. reflexivity.
Defined.

(** * Further properties of the code *)

(** ** [clamp] *)

(** X1.  [clamp] is idempotent and never exceeds [max]; when min <= max its
    result lies in [min, max] and equals the argument exactly when the
    argument is already in range; with the bounds inverted it returns
    [max]. *)
Theorem clamp_spec (n lo hi : Z) :
  clamp (clamp n lo hi) lo hi = clamp n lo hi /\
  clamp n lo hi <= hi /\
  (lo <= hi ->
     lo <= clamp n lo hi /\ (clamp n lo hi = n <-> lo <= n <= hi) /\
     (n < lo -> clamp n lo hi = lo) /\ (hi < n -> clamp n lo hi = hi)) /\
  (hi < lo -> clamp n lo hi = hi).
Proof. unfold clamp. repeat split; intros; lia. Qed.

Lemma clamp_spec_witness :
  0 <= 4 /\ clamp 7 0 4 = 4 /\ 0 <= clamp 7 0 4.
Proof.
  destruct (clamp_spec 7 0 4) as (_ & _ & H & _).
  assert (Hb : 0 <= 4) by lia.
  destruct (H Hb) as (Hlo & _ & _ & Hhi).
  split; [exact Hb | split; [apply Hhi; lia | exact Hlo]].
Defined.

(** ** The visible count against the geometry of the strip *)

Lemma quotient_fits (W G v : Z) :
  0 < W -> 0 <= G -> W <= v ->
  let q := Qfloor (inject_Z (v + G) / inject_Z (W + G)) in
  1 <= q /\ fitsExactly W G v q.
Proof.
  intros HW HG Hv q. subst q. rewrite floor_quotient. unfold fitsExactly.
  assert (Hpos : 0 < W + G) by lia.
  pose proof (Z.mul_div_le (v + G) (W + G) Hpos) as Hle.
  pose proof (Z.mul_succ_div_gt (v + G) (W + G) Hpos) as Hgt.
  assert (Hq : 1 <= (v + G) / (W + G)).
  { apply (Z.div_le_lower_bound _ _ 1); lia. }
  split; [exact Hq |]. nia.
Qed.

(** X2.  With a positive item width and a gap that is not negative, in a
    viewport at least one item wide the visible count of each carousel is
    the largest number of items that fit side by side ([k] items take
    k * width + (k - 1) * gap); in a narrower viewport, measured or not, it
    is 1 although no item fits. *)
Theorem visible_count_fits (W G v : Z) :
  0 < W -> 0 <= G ->
  (W <= v ->
     fitsExactly W G v (Page.visibleCount W G v) /\
     fitsExactly W G v (PressHitsRail.visibleCount W G v) /\
     fitsExactly W G v (PhotoRail.visibleCount W G v)) /\
  (0 <= v < W ->
     Page.visibleCount W G v = 1 /\
     PressHitsRail.visibleCount W G v = 1 /\
     PhotoRail.visibleCount W G v = 1).
Proof.
  intros HW HG. split.
  - intros Hv. destruct (quotient_fits W G v HW HG Hv) as [Hq Hfit].
    unfold Page.visibleCount, PressHitsRail.visibleCount, PhotoRail.visibleCount.
    destruct (Z.eqb_spec v 0) as [E|_]; [lia |].
    rewrite Z.max_r by exact Hq. repeat split; apply Hfit.
  - intros Hv.
    unfold Page.visibleCount, PressHitsRail.visibleCount, PhotoRail.visibleCount.
    destruct (Z.eqb_spec v 0) as [E|_]; [repeat split |].
    rewrite floor_quotient, Z.div_small by lia. repeat split.
Qed.

Lemma visible_count_fits_witness :
  0 < CARD_WIDTH /\ 0 <= CARD_GAP /\ CARD_WIDTH <= 900 /\
  fitsExactly CARD_WIDTH CARD_GAP 900 (Page.visibleCount CARD_WIDTH CARD_GAP 900).
Proof.
  assert (HW : 0 < CARD_WIDTH) by reflexivity.
  assert (HG : 0 <= CARD_GAP) by discriminate.
  assert (Hv : CARD_WIDTH <= 900) by discriminate.
  split; [exact HW | split; [exact HG | split; [exact Hv |]]].
  exact (proj1 (proj1 (visible_count_fits CARD_WIDTH CARD_GAP 900 HW HG) Hv)).
Defined.

(** X3.  Widening the viewport never lowers the visible count and never
    raises the maximum index. *)
Theorem wider_viewport_shows_more
    (W G v1 v2 : Z) (items : list Page.PressItem) (hits : list PressHit) (photos : list string) :
  0 < W -> 0 <= G -> 0 <= v1 <= v2 ->
  (Page.visibleCount W G v1 <= Page.visibleCount W G v2 /\
   Page.maxPressIndexAt W G items v2 <= Page.maxPressIndexAt W G items v1) /\
  (PressHitsRail.visibleCount W G v1 <= PressHitsRail.visibleCount W G v2 /\
   PressHitsRail.maxIndexAt W G hits v2 <= PressHitsRail.maxIndexAt W G hits v1) /\
  (PhotoRail.visibleCount W G v1 <= PhotoRail.visibleCount W G v2 /\
   PhotoRail.maxIndexAt W G photos v2 <= PhotoRail.maxIndexAt W G photos v1).
Proof.
  intros HW HG Hv.
  assert (Hvis : Page.visibleCount W G v1 <= Page.visibleCount W G v2).
  { rewrite !page_visible_formula by assumption. rewrite !floor_quotient.
    apply Z.max_le_compat_l. apply Z.div_le_mono; lia. }
  unfold Page.maxPressIndexAt, Page.maxPressIndex, PressHitsRail.maxIndexAt,
    PressHitsRail.maxIndex, PhotoRail.maxIndexAt, PhotoRail.maxIndex.
  change (PressHitsRail.visibleCount W G) with (Page.visibleCount W G).
  change (PhotoRail.visibleCount W G) with (Page.visibleCount W G).
  repeat split; lia.
Qed.

Lemma wider_viewport_shows_more_witness :
  0 < CARD_WIDTH /\ 0 <= CARD_GAP /\ 0 <= 900 <= 1600 /\
  Page.maxPressIndexAt CARD_WIDTH CARD_GAP pressItems 1600 <=
  Page.maxPressIndexAt CARD_WIDTH CARD_GAP pressItems 900.
Proof.
  assert (HW : 0 < CARD_WIDTH) by reflexivity.
  assert (HG : 0 <= CARD_GAP) by discriminate.
  assert (Hv : 0 <= 900 <= 1600) by lia.
  split; [exact HW | split; [exact HG | split; [exact Hv |]]].
  exact (proj2 (proj1 (wider_viewport_shows_more CARD_WIDTH CARD_GAP 900 1600
                         pressItems [] [] HW HG Hv))).
Defined.

(** ** Where the strip can slide *)

Lemma last_tile_arith (W G v n vis i : Z) :
  0 < W -> 0 <= G -> 1 <= n -> 1 <= vis ->
  0 <= i <= Z.max 0 (n - vis) ->
  0 <= tileLeft (- i * (W + G)) W G (n - 1) /\
  (fitsExactly W G v vis -> i = Z.max 0 (n - vis) ->
   tileLeft (- i * (W + G)) W G (n - 1) + W <= v).
Proof.
  unfold tileLeft, fitsExactly. intros HW HG Hn Hvis Hi. split; [nia |].
  intros Hfit ->. destruct (Z.max_spec 0 (n - vis)) as [[H1 ->] | [H1 ->]]; nia.
Qed.

(** X4.  For a non-empty strip whose index is in range, the last tile never
    starts left of the viewport; and at the maximum index, in a viewport at
    least one tile wide, the last tile ends inside the viewport: it can be
    seen in full, and the strip is never scrolled past it. *)
Theorem last_tile_reachable
    (W G : Z) (x : Page.PressItem) (items : list Page.PressItem)
    (h : PressHit) (hits : list PressHit) (p : string) (photos : list string)
    (st : CarouselState) :
  0 < W -> 0 <= G ->
  (inRange (Page.maxPressIndexAt W G (x :: items)) st ->
     let last := Z.of_nat (List.length (x :: items)) - 1 in
     0 <= tileLeft (PageView.animateX W G st) W G last /\
     (W <= viewportW st ->
      index st = Page.maxPressIndexAt W G (x :: items) (viewportW st) ->
      tileLeft (PageView.animateX W G st) W G last + W <= viewportW st)) /\
  (inRange (PressHitsRail.maxIndexAt W G (h :: hits)) st ->
     let last := Z.of_nat (List.length (h :: hits)) - 1 in
     0 <= tileLeft (PressHitsRailView.animateX W G st) W G last /\
     (W <= viewportW st ->
      index st = PressHitsRail.maxIndexAt W G (h :: hits) (viewportW st) ->
      tileLeft (PressHitsRailView.animateX W G st) W G last + W <= viewportW st)) /\
  (inRange (PhotoRail.maxIndexAt W G (p :: photos)) st ->
     let last := Z.of_nat (List.length (p :: photos)) - 1 in
     0 <= tileLeft (PhotoRailView.animateX W G st) W G last /\
     (W <= viewportW st ->
      index st = PhotoRail.maxIndexAt W G (p :: photos) (viewportW st) ->
      tileLeft (PhotoRailView.animateX W G st) W G last + W <= viewportW st)).
Proof.
  intros HW HG. destruct st as [i v].
  unfold inRange, PageView.animateX, PressHitsRailView.animateX, PhotoRailView.animateX,
    Page.maxPressIndexAt, Page.maxPressIndex, Page.pressCount,
    PressHitsRail.maxIndexAt, PressHitsRail.maxIndex,
    PhotoRail.maxIndexAt, PhotoRail.maxIndex.
  cbn [index viewportW].
  change (PressHitsRail.visibleCount W G) with (Page.visibleCount W G).
  change (PhotoRail.visibleCount W G) with (Page.visibleCount W G).
  pose proof (page_visible_pos W G v) as Hvis.
  split; [| split]; intros Hr; cbv zeta;
    match goal with
    | |- context [Z.of_nat (List.length ?l)] =>
        assert (Hn : 1 <= Z.of_nat (List.length l)) by (cbn [List.length]; lia);
        destruct (last_tile_arith W G v (Z.of_nat (List.length l))
                    (Page.visibleCount W G v) i HW HG Hn Hvis Hr) as [Hleft Hright]
    end;
    (split; [exact Hleft | intros Hv Hi; apply Hright; [| exact Hi]]);
    exact (proj1 (proj1 (visible_count_fits W G v HW HG) Hv)).
Qed.

Lemma last_tile_reachable_witness :
  0 < CARD_WIDTH /\ 0 <= CARD_GAP /\
  inRange (Page.maxPressIndexAt CARD_WIDTH CARD_GAP pressItems) {| index := 7; viewportW := 900 |} /\
  tileLeft (PageView.animateX CARD_WIDTH CARD_GAP {| index := 7; viewportW := 900 |})
           CARD_WIDTH CARD_GAP 9 + CARD_WIDTH <= 900.
Proof.
  assert (HW : 0 < CARD_WIDTH) by reflexivity.
  assert (HG : 0 <= CARD_GAP) by discriminate.
  assert (Hr : inRange (Page.maxPressIndexAt CARD_WIDTH CARD_GAP pressItems)
                 {| index := 7; viewportW := 900 |})
    by (vm_compute; split; discriminate).
  split; [exact HW | split; [exact HG | split; [exact Hr |]]].
  refine (proj2 (proj1 (last_tile_reachable CARD_WIDTH CARD_GAP
            (hd (Page.Build_PressItem EmptyString EmptyString undefined undefined) pressItems)
            (tl pressItems)
            (Build_PressHit EmptyString EmptyString EmptyString) [] EmptyString []
            {| index := 7; viewportW := 900 |} HW HG) Hr) _ _).
  - discriminate.
  - reflexivity.
Defined.

(** ** The position label *)

(** X5.  After any sequence of events on a carousel that has items, the
    position label "k / n" satisfies 1 <= k <= n, with n the number of
    items, and k is the index plus one: the [Math.min] of the rails never
    cuts it.  A rail without items would show "0 / 0". *)
Theorem position_label_in_range
    (W G : Z) (x : Page.PressItem) (items : list Page.PressItem)
    (h : PressHit) (hits : list PressHit) (p : string) (photos : list string)
    (evs : list CarouselEvent) :
  (let st := run (Page.step W G (x :: items)) (Page.init W G (x :: items)) evs in
   let label := PageView.positionLabel (x :: items) st in
   fst label = index st + 1 /\ 1 <= fst label <= snd label /\
   snd label = Z.of_nat (List.length (x :: items))) /\
  (let st := run (PressHitsRail.step W G (h :: hits)) (PressHitsRail.init W G (h :: hits)) evs in
   let label := PressHitsRailView.positionLabel (h :: hits) st in
   fst label = index st + 1 /\ 1 <= fst label <= snd label /\
   snd label = Z.of_nat (List.length (h :: hits))) /\
  (let st := run (PhotoRail.step W G (p :: photos)) (PhotoRail.init W G (p :: photos)) evs in
   let label := PhotoRailView.positionLabel (p :: photos) st in
   fst label = index st + 1 /\ 1 <= fst label <= snd label /\
   snd label = Z.of_nat (List.length (p :: photos))) /\
  (let st := run (PressHitsRail.step W G []) (PressHitsRail.init W G []) evs in
   PressHitsRailView.positionLabel [] st = (0, 0)) /\
  (let st := run (PhotoRail.step W G []) (PhotoRail.init W G []) evs in
   PhotoRailView.positionLabel [] st = (0, 0)).
Proof.
  assert (Hpage := run_invariant (Page.step W G (x :: items)) _
                     (page_step_inRange W G (x :: items)) evs _
                     (page_init_inRange W G (x :: items))).
  assert (Hhits := fun l => run_invariant (PressHitsRail.step W G l) _
                     (hits_step_inRange W G l) evs _ (hits_init_inRange W G l)).
  assert (Hphoto := fun l => run_invariant (PhotoRail.step W G l) _
                     (photo_step_inRange W G l) evs _ (photo_init_inRange W G l)).
  split; [| split; [| split; [| split]]]; cbv zeta.
  - clear Hhits Hphoto. set (st := run _ _ _) in *. clearbody st.
    unfold inRange in Hpage.
    pose proof (page_visible_pos W G (viewportW st)).
    unfold PageView.positionLabel, Page.maxPressIndexAt, Page.maxPressIndex,
      Page.pressCount in *. cbn [fst snd List.length] in *. lia.
  - specialize (Hhits (h :: hits)). clear Hpage Hphoto.
    set (st := run _ _ _) in *. clearbody st. unfold inRange in Hhits.
    pose proof (hits_visible_pos W G (viewportW st)).
    unfold PressHitsRailView.positionLabel, PressHitsRail.maxIndexAt,
      PressHitsRail.maxIndex in *. cbn [fst snd List.length] in *. lia.
  - specialize (Hphoto (p :: photos)). clear Hpage Hhits.
    set (st := run _ _ _) in *. clearbody st. unfold inRange in Hphoto.
    pose proof (photo_visible_pos W G (viewportW st)).
    unfold PhotoRailView.positionLabel, PhotoRail.maxIndexAt,
      PhotoRail.maxIndex in *. cbn [fst snd List.length] in *. lia.
  - specialize (Hhits []). clear Hpage Hphoto.
    set (st := run _ _ _) in *. clearbody st. unfold inRange in Hhits.
    rewrite hits_empty_max in Hhits.
    unfold PressHitsRailView.positionLabel. cbn [List.length]. f_equal. lia.
  - specialize (Hphoto []). clear Hpage Hhits.
    set (st := run _ _ _) in *. clearbody st. unfold inRange in Hphoto.
    rewrite photo_empty_max in Hphoto.
    unfold PhotoRailView.positionLabel. cbn [List.length]. f_equal. lia.
Qed.

(** ** Repeated clicks, drags and resizes *)

Section RepeatedClicks.
Variables W G : Z.

Lemma page_next_clicks (items : list Page.PressItem) (k : nat) (st : CarouselState) :
  inRange (Page.maxPressIndexAt W G items) st ->
  run (Page.step W G items) st (repeat ClickNext k) =
    {| index := Z.min (index st + Z.of_nat k) (Page.maxPressIndexAt W G items (viewportW st));
       viewportW := viewportW st |}.
Proof.
  revert st. induction k as [|k IH]; intros st Hr.
  - destruct st as [i v]. unfold inRange in Hr. cbn in *. f_equal. lia.
  - change (run (Page.step W G items) st (repeat ClickNext (S k)))
      with (run (Page.step W G items) (Page.step W G items ClickNext st) (repeat ClickNext k)).
    rewrite IH by (apply page_step_inRange; exact Hr).
    pose proof (page_legal_step_has_press _ _ _ _ Hr) as Hp.
    destruct st as [i v]. unfold inRange in Hr. cbn [index viewportW] in *.
    unfold_handlers. split_tests; unfold_handlers; f_equal; lia.
Qed.

Lemma page_prev_clicks (items : list Page.PressItem) (k : nat) (st : CarouselState) :
  inRange (Page.maxPressIndexAt W G items) st ->
  run (Page.step W G items) st (repeat ClickPrev k) =
    {| index := Z.max (index st - Z.of_nat k) 0; viewportW := viewportW st |}.
Proof.
  revert st. induction k as [|k IH]; intros st Hr.
  - destruct st as [i v]. unfold inRange in Hr. cbn in *. f_equal. lia.
  - change (run (Page.step W G items) st (repeat ClickPrev (S k)))
      with (run (Page.step W G items) (Page.step W G items ClickPrev st) (repeat ClickPrev k)).
    rewrite IH by (apply page_step_inRange; exact Hr).
    pose proof (page_legal_step_has_press _ _ _ _ Hr) as Hp.
    destruct st as [i v]. unfold inRange in Hr. cbn [index viewportW] in *.
    unfold_handlers. split_tests; unfold_handlers; f_equal; lia.
Qed.

Lemma hits_next_clicks (hits : list PressHit) (k : nat) (st : CarouselState) :
  inRange (PressHitsRail.maxIndexAt W G hits) st ->
  run (PressHitsRail.step W G hits) st (repeat ClickNext k) =
    {| index := Z.min (index st + Z.of_nat k) (PressHitsRail.maxIndexAt W G hits (viewportW st));
       viewportW := viewportW st |}.
Proof.
  revert st. induction k as [|k IH]; intros st Hr.
  - destruct st as [i v]. unfold inRange in Hr. cbn in *. f_equal. lia.
  - change (run (PressHitsRail.step W G hits) st (repeat ClickNext (S k)))
      with (run (PressHitsRail.step W G hits)
                (PressHitsRail.step W G hits ClickNext st) (repeat ClickNext k)).
    rewrite IH by (apply hits_step_inRange; exact Hr).
    destruct st as [i v]. unfold inRange in Hr. cbn [index viewportW] in *.
    unfold_handlers. split_tests; unfold_handlers; f_equal; lia.
Qed.

Lemma hits_prev_clicks (hits : list PressHit) (k : nat) (st : CarouselState) :
  inRange (PressHitsRail.maxIndexAt W G hits) st ->
  run (PressHitsRail.step W G hits) st (repeat ClickPrev k) =
    {| index := Z.max (index st - Z.of_nat k) 0; viewportW := viewportW st |}.
Proof.
  revert st. induction k as [|k IH]; intros st Hr.
  - destruct st as [i v]. unfold inRange in Hr. cbn in *. f_equal. lia.
  - change (run (PressHitsRail.step W G hits) st (repeat ClickPrev (S k)))
      with (run (PressHitsRail.step W G hits)
                (PressHitsRail.step W G hits ClickPrev st) (repeat ClickPrev k)).
    rewrite IH by (apply hits_step_inRange; exact Hr).
    destruct st as [i v]. unfold inRange in Hr. cbn [index viewportW] in *.
    unfold_handlers. split_tests; unfold_handlers; f_equal; lia.
Qed.

Lemma photo_next_clicks (photos : list string) (k : nat) (st : CarouselState) :
  inRange (PhotoRail.maxIndexAt W G photos) st ->
  run (PhotoRail.step W G photos) st (repeat ClickNext k) =
    {| index := Z.min (index st + Z.of_nat k) (PhotoRail.maxIndexAt W G photos (viewportW st));
       viewportW := viewportW st |}.
Proof.
  revert st. induction k as [|k IH]; intros st Hr.
  - destruct st as [i v]. unfold inRange in Hr. cbn in *. f_equal. lia.
  - change (run (PhotoRail.step W G photos) st (repeat ClickNext (S k)))
      with (run (PhotoRail.step W G photos)
                (PhotoRail.step W G photos ClickNext st) (repeat ClickNext k)).
    rewrite IH by (apply photo_step_inRange; exact Hr).
    destruct st as [i v]. unfold inRange in Hr. cbn [index viewportW] in *.
    unfold_handlers. split_tests; unfold_handlers; f_equal; lia.
Qed.

Lemma photo_prev_clicks (photos : list string) (k : nat) (st : CarouselState) :
  inRange (PhotoRail.maxIndexAt W G photos) st ->
  run (PhotoRail.step W G photos) st (repeat ClickPrev k) =
    {| index := Z.max (index st - Z.of_nat k) 0; viewportW := viewportW st |}.
Proof.
  revert st. induction k as [|k IH]; intros st Hr.
  - destruct st as [i v]. unfold inRange in Hr. cbn in *. f_equal. lia.
  - change (run (PhotoRail.step W G photos) st (repeat ClickPrev (S k)))
      with (run (PhotoRail.step W G photos)
                (PhotoRail.step W G photos ClickPrev st) (repeat ClickPrev k)).
    rewrite IH by (apply photo_step_inRange; exact Hr).
    destruct st as [i v]. unfold inRange in Hr. cbn [index viewportW] in *.
    unfold_handlers. split_tests; unfold_handlers; f_equal; lia.
Qed.
End RepeatedClicks.

(** X6.  From a state whose index is in range, [k] clicks on the next
    button move the index forward by [k], stopping at the maximum index,
    and [k] clicks on the previous button move it back by [k], stopping at
    0; the measured width is untouched.  So every index from 0 to the
    maximum can be reached with the buttons. *)
Theorem repeated_clicks
    (W G : Z) (items : list Page.PressItem) (hits : list PressHit) (photos : list string)
    (st : CarouselState) (k : nat) :
  (inRange (Page.maxPressIndexAt W G items) st ->
     run (Page.step W G items) st (repeat ClickNext k) =
       {| index := Z.min (index st + Z.of_nat k) (Page.maxPressIndexAt W G items (viewportW st));
          viewportW := viewportW st |} /\
     run (Page.step W G items) st (repeat ClickPrev k) =
       {| index := Z.max (index st - Z.of_nat k) 0; viewportW := viewportW st |}) /\
  (inRange (PressHitsRail.maxIndexAt W G hits) st ->
     run (PressHitsRail.step W G hits) st (repeat ClickNext k) =
       {| index := Z.min (index st + Z.of_nat k)
                         (PressHitsRail.maxIndexAt W G hits (viewportW st));
          viewportW := viewportW st |} /\
     run (PressHitsRail.step W G hits) st (repeat ClickPrev k) =
       {| index := Z.max (index st - Z.of_nat k) 0; viewportW := viewportW st |}) /\
  (inRange (PhotoRail.maxIndexAt W G photos) st ->
     run (PhotoRail.step W G photos) st (repeat ClickNext k) =
       {| index := Z.min (index st + Z.of_nat k)
                         (PhotoRail.maxIndexAt W G photos (viewportW st));
          viewportW := viewportW st |} /\
     run (PhotoRail.step W G photos) st (repeat ClickPrev k) =
       {| index := Z.max (index st - Z.of_nat k) 0; viewportW := viewportW st |}).
Proof.
  split; [| split]; intros Hr; split.
  - apply page_next_clicks; exact Hr.
  - apply page_prev_clicks; exact Hr.
  - apply hits_next_clicks; exact Hr.
  - apply hits_prev_clicks; exact Hr.
  - apply photo_next_clicks; exact Hr.
  - apply photo_prev_clicks; exact Hr.
Qed.

Lemma repeated_clicks_witness :
  inRange (Page.maxPressIndexAt CARD_WIDTH CARD_GAP pressItems) {| index := 2; viewportW := 900 |} /\
  run (Page.step CARD_WIDTH CARD_GAP pressItems) {| index := 2; viewportW := 900 |}
      (repeat ClickNext 9) =
    {| index := Z.min (2 + 9) (Page.maxPressIndexAt CARD_WIDTH CARD_GAP pressItems 900);
       viewportW := 900 |}.
Proof.
  assert (Hr : inRange (Page.maxPressIndexAt CARD_WIDTH CARD_GAP pressItems)
                 {| index := 2; viewportW := 900 |})
    by (vm_compute; split; discriminate).
  split; [exact Hr |].
  exact (proj1 (proj1 (repeated_clicks CARD_WIDTH CARD_GAP pressItems [] []
                         {| index := 2; viewportW := 900 |} 9) Hr)).
Defined.

(** X7.  In every state of each carousel, a drag released more than 60 to
    the left does exactly what a click on the next button does, a drag
    released more than 60 to the right what a click on the previous button
    does, and a shorter drag nothing. *)
Theorem drag_acts_like_button
    (W G : Z) (items : list Page.PressItem) (hits : list PressHit) (photos : list string)
    (st : CarouselState) (d : Q) :
  ((d < -60)%Q ->
     Page.step W G items (DragEnd d) st = Page.step W G items ClickNext st /\
     PressHitsRail.step W G hits (DragEnd d) st = PressHitsRail.step W G hits ClickNext st /\
     PhotoRail.step W G photos (DragEnd d) st = PhotoRail.step W G photos ClickNext st) /\
  ((60 < d)%Q ->
     Page.step W G items (DragEnd d) st = Page.step W G items ClickPrev st /\
     PressHitsRail.step W G hits (DragEnd d) st = PressHitsRail.step W G hits ClickPrev st /\
     PhotoRail.step W G photos (DragEnd d) st = PhotoRail.step W G photos ClickPrev st) /\
  ((-60 <= d)%Q -> (d <= 60)%Q ->
     Page.step W G items (DragEnd d) st = st /\
     PressHitsRail.step W G hits (DragEnd d) st = st /\
     PhotoRail.step W G photos (DragEnd d) st = st).
Proof.
  destruct st as [i v].
  split; [| split].
  - intros Hd. destruct (drag_left _ Hd) as [E1 E2].
    repeat split; unfold_handlers; rewrite ?E1, ?E2; cbn [andb negb];
      split_tests; try reflexivity; f_equal; lia.
  - intros Hd. destruct (drag_right _ Hd) as [E1 E2].
    repeat split; unfold_handlers; rewrite ?E1, ?E2; cbn [andb negb];
      split_tests; try reflexivity; f_equal; lia.
  - intros H1 H2. destruct (drag_short _ H1 H2) as [E1 E2].
    repeat split; unfold_handlers; rewrite ?E1, ?E2; cbn [andb negb];
      split_tests; reflexivity.
Qed.

Lemma drag_acts_like_button_witness :
  (-80 < -60)%Q /\
  Page.step CARD_WIDTH CARD_GAP pressItems (DragEnd (-80)) {| index := 2; viewportW := 900 |} =
  Page.step CARD_WIDTH CARD_GAP pressItems ClickNext {| index := 2; viewportW := 900 |}.
Proof.
  assert (Hd : (-80 < -60)%Q) by reflexivity.
  split; [exact Hd |].
  exact (proj1 (proj1 (drag_acts_like_button CARD_WIDTH CARD_GAP pressItems [] []
                         {| index := 2; viewportW := 900 |} (-80)) Hd)).
Defined.

(** X8.  Reporting the same width twice is the same as reporting it once,
    in every state of each carousel; and clicks and drags never touch the
    measured width. *)
Theorem resize_idempotent
    (W G : Z) (items : list Page.PressItem) (hits : list PressHit) (photos : list string)
    (st : CarouselState) (w : Z) (d : Q) :
  (Page.step W G items (Resize w) (Page.step W G items (Resize w) st) =
     Page.step W G items (Resize w) st /\
   PressHitsRail.step W G hits (Resize w) (PressHitsRail.step W G hits (Resize w) st) =
     PressHitsRail.step W G hits (Resize w) st /\
   PhotoRail.step W G photos (Resize w) (PhotoRail.step W G photos (Resize w) st) =
     PhotoRail.step W G photos (Resize w) st) /\
  Forall (fun ev =>
            viewportW (Page.step W G items ev st) = viewportW st /\
            viewportW (PressHitsRail.step W G hits ev st) = viewportW st /\
            viewportW (PhotoRail.step W G photos ev st) = viewportW st)
         [ClickPrev; ClickNext; DragEnd d].
Proof.
  assert (Hz : orZero (orZero w) = orZero w).
  { unfold orZero. destruct (Z.eqb_spec w 0) as [->|Hne]; [reflexivity |].
    destruct (Z.eqb_spec w 0); [contradiction | reflexivity]. }
  destruct st as [i v]. split.
  - repeat split; unfold Page.step; try destruct (Page.hasPress items); try reflexivity;
      unfold_handlers; split_tests; unfold_handlers;
      rewrite ?Hz, ?Z.eqb_refl in *; try reflexivity; try congruence.
  - repeat constructor; unfold_handlers; split_tests; reflexivity.
Qed.

(** ** React keys *)

Lemma append_snoc (acc : string) (c : ascii) (s : string) :
  ((acc ++ String c EmptyString) ++ s = acc ++ String c s)%string.
Proof.
  induction acc as [|a acc IH]; simpl; [reflexivity | rewrite IH; reflexivity].
Qed.

Lemma append_empty (s : string) : (s ++ EmptyString)%string = s.
Proof. induction s as [|a s IH]; simpl; [reflexivity | rewrite IH; reflexivity]. Qed.

(** The digits of an index hold no dash. *)
Lemma digits_after_dash (d : Decimal.uint) (acc : string) :
  afterLastDash acc (DecimalString.NilEmpty.string_of_uint d) =
  (acc ++ DecimalString.NilEmpty.string_of_uint d)%string.
Proof.
  revert acc. induction d; intros acc; simpl;
    try (rewrite IHd; apply append_snoc).
  symmetry. apply append_empty.
Qed.

Lemma key_after_dash (prefix : string) (i : nat) (acc : string) :
  afterLastDash acc (dashKey prefix i) = showIndex i.
Proof.
  unfold dashKey. revert acc. induction prefix as [|c prefix IH]; intros acc; simpl.
  - apply digits_after_dash.
  - destruct (Ascii.eqb c "-"); apply IH.
Qed.

Lemma showIndex_inj (i j : nat) : showIndex i = showIndex j -> i = j.
Proof.
  unfold showIndex. intros H. apply DecimalNat.Unsigned.to_uint_inj.
  apply (f_equal DecimalString.NilEmpty.uint_of_string) in H.
  rewrite !DecimalString.NilEmpty.usu in H. congruence.
Qed.

(** Two keys that end in different indices differ, whatever their
    prefixes. *)
Lemma dashKey_index (p q : string) (i j : nat) : dashKey p i = dashKey q j -> i = j.
Proof.
  intros H. apply showIndex_inj.
  rewrite <- (key_after_dash p i EmptyString), <- (key_after_dash q j EmptyString).
  rewrite H. reflexivity.
Qed.

Lemma map_mapFrom {A B C : Type} (g : B -> C) (f : A -> nat -> B) (i : nat) (l : list A) :
  map g (mapFrom f i l) = mapFrom (fun x k => g (f x k)) i l.
Proof.
  revert i. induction l as [|x l IH]; intros i; simpl; [reflexivity | rewrite IH; reflexivity].
Qed.

Lemma in_mapFrom {A B : Type} (f : A -> nat -> B) (i : nat) (l : list A) (y : B) :
  In y (mapFrom f i l) -> exists x k, (i <= k)%nat /\ y = f x k.
Proof.
  revert i. induction l as [|x l IH]; intros i; simpl; [contradiction |].
  intros [<- | Hin].
  - exists x, i. split; [lia | reflexivity].
  - destruct (IH _ Hin) as (x' & k & Hk & ->). exists x', k. split; [lia | reflexivity].
Qed.

Lemma indexed_keys_distinct {A : Type} (key : A -> nat -> string) (l : list A) :
  (forall x y i j, key x i = key y j -> i = j) ->
  forall i, NoDup (mapFrom key i l).
Proof.
  intros Hinj. induction l as [|x l IH]; intros i; simpl; constructor.
  - intros Hin. apply in_mapFrom in Hin as (y & k & Hk & Hxy).
    apply Hinj in Hxy. lia.
  - apply IH.
Qed.

(** X9.  The React keys of the items that a list renders are pairwise
    distinct, whatever the list holds (repeated or empty hrefs, titles,
    publishers, photo URLs, dashes inside the texts): the press cards, the
    press-hit circles, the photo figures and the timeline rows. *)
Theorem react_keys_distinct
    (items : list Page.PressItem) (hits : list PressHit) (photos : list string)
    (entries : list ExperienceWithYear) :
  NoDup (map wrapperKey (PageView.cards items)) /\
  NoDup (map wrapperKey (PressHitsRailView.circles hits)) /\
  NoDup (PhotoRailView.figureKeys photos) /\
  NoDup (map rowKey (ExperienceTimelineList entries)).
Proof.
  unfold PageView.cards, PressHitsRailView.circles, PhotoRailView.figureKeys,
    ExperienceTimelineList, mapIndexed.
  rewrite !map_mapFrom.
  repeat split; apply indexed_keys_distinct; intros x y i j.
  - unfold PageView.card.
    destruct (negb (truthy (Page.href x))), (negb (truthy (Page.href y)));
      apply dashKey_index.
  - unfold PressHitsRailView.circle.
    destruct (negb (truthy (href x))), (negb (truthy (href y))); apply dashKey_index.
  - apply dashKey_index.
  - apply dashKey_index.
Qed.

(** ** The alternative text of a press hit *)




(** ** The photos of a timeline entry *)

Lemma truthy_nonempty (s : string) : truthy s = true <-> s <> EmptyString.
Proof.
  unfold truthy. rewrite negb_true_iff. apply String.eqb_neq.
Qed.

(** X11.  The photo list that [TimelineEntry] hands to [PhotoRail] never
    holds an empty URL.  When [photos] holds a non-empty URL the list is
    the non-empty URLs of [photos] in their order, whatever [image] is;
    otherwise it is the single [image] when that is a non-empty string, and
    empty when not.  The rail is rendered exactly when the list is not
    empty. *)
Theorem photos_of_entry (item : ExperienceWithYear) :
  Forall (fun src => src <> EmptyString) (photosOf item) /\
  (forall l, photos (entry item) = present l -> filter truthy l <> [] ->
     photosOf item = filter truthy l) /\
  ((forall l, photos (entry item) = present l -> filter truthy l = []) ->
     photosOf item =
       match image (entry item) with
       | present src => if truthy src then [src] else []
       | _ => []
       end) /\
  (photoRailOf item = None <-> photosOf item = []) /\
  (forall shown, photoRailOf item = Some shown -> shown = photosOf item /\ shown <> []).
Proof.
  remember (match photos (entry item) with
            | present l => filter truthy l
            | _ => []
            end) as fromList eqn:HL.
  remember (match image (entry item) with
            | present src => if truthy src then [src] else []
            | _ => []
            end) as fromSingle eqn:HS.
  assert (Hof : photosOf item =
                if negb (Nat.eqb (List.length fromList) 0) then fromList else fromSingle)
    by (subst; reflexivity).
  assert (HfL : Forall (fun src => src <> EmptyString) fromList).
  { subst fromList. destruct (photos (entry item)); try constructor.
    apply Forall_forall. intros src Hin. apply filter_In in Hin as [_ Ht].
    apply truthy_nonempty; exact Ht. }
  assert (HfS : Forall (fun src => src <> EmptyString) fromSingle).
  { subst fromSingle. destruct (image (entry item)) as [| |src]; try constructor.
    destruct (truthy src) eqn:Ht; repeat constructor. apply truthy_nonempty; exact Ht. }
  assert (Hcase : (fromList <> [] /\ photosOf item = fromList) \/
                  (fromList = [] /\ photosOf item = fromSingle)).
  { rewrite Hof. destruct fromList; [right | left]; split; cbn; congruence. }
  repeat apply conj.
  - destruct Hcase as [[_ ->] | [_ ->]]; assumption.
  - intros l Hl Hne. rewrite Hl in HL. subst fromList.
    destruct Hcase as [[_ ->] | [He _]]; [reflexivity | contradiction].
  - intros Hnone. destruct Hcase as [[Hne _] | [_ ->]]; [| reflexivity].
    exfalso. apply Hne. subst fromList.
    destruct (photos (entry item)) as [| |l] eqn:Hl; try reflexivity.
    apply (Hnone l). reflexivity.
  - clear. unfold photoRailOf. destruct (photosOf item); cbn;
      intros H; try discriminate H; reflexivity.
  - clear. unfold photoRailOf. destruct (photosOf item); cbn;
      intros H; try discriminate H; reflexivity.
  - clear. intros shown. unfold photoRailOf. destruct (photosOf item); cbn;
      intros Hs; inversion Hs; split; (reflexivity || discriminate).
Qed.

Lemma photos_of_entry_witness :
  photos (entry commsEntryWithoutHits) = undefined /\
  photosOf commsEntryWithoutHits = [].
Proof.
  split; [reflexivity |].
  apply (proj1 (proj2 (proj2 (photos_of_entry commsEntryWithoutHits)))).
  intros l Hl. discriminate Hl.
Defined.

(** ** The exported object [experienceByYear] *)

(** X12.  Whatever list stands in the place of [raw], the derived object
    has the five year labels as its own keys, in ascending order; reading a
    year label gives the entries that the year's predicate accepts, in the
    order of the list; and every key that [buildItems] reads is one of
    these, so its [?? []] fallback is never taken. *)
Theorem experience_by_year_lookup (entries : list ExperienceItem) :
  keys (groupByYear entries) = ["2021"; "2022"; "2023"; "2024"; "2025"]%string /\
  Forall (fun yp => obj_get (fst yp) (groupByYear entries) = present (filter (snd yp) entries))
         order /\
  Forall (fun y => exists p, In (y, p) order /\
                     obj_get y (groupByYear entries) = present (filter p entries))
         (sortBy byYearDescending (keys (groupByYear entries))).
Proof.
  split; [reflexivity | split].
  - repeat constructor.
  - change (sortBy byYearDescending (keys (groupByYear entries)))
      with ["2025"; "2024"; "2023"; "2022"; "2021"]%string.
    repeat (apply Forall_cons;
            [eexists; split; [| reflexivity];
             cbn; repeat (first [left; reflexivity | right]) |]).
    apply Forall_nil.
Qed.

(** ** How often an entry is listed *)

Lemma entries_of_blocks (ys : list (string * (ExperienceItem -> bool)))
    (entries : list ExperienceItem) :
  map entry (yearBlocks ys entries) =
  List.concat (map (fun p => filter p entries) (map snd ys)).
Proof.
  induction ys as [|yp ys IH]; [reflexivity |].
  rewrite yearBlocks_cons, map_app, map_map, IH. cbn [entry map List.concat].
  rewrite map_id. reflexivity.
Qed.

Lemma buckets_multiplicity {A : Type} (preds : list (A -> bool)) (l : list A) :
  Permutation (List.concat (map (fun p => filter p l) preds))
              (flat_map (fun e => repeat e (accepting preds e)) l).
Proof.
  induction l as [|x l IH].
  - induction preds as [|p preds IHp]; simpl; [constructor | exact IHp].
  - rewrite buckets_cons. simpl. apply Permutation_app_head. exact IH.
Qed.

Lemma accepting_rev {A : Type} (preds : list (A -> bool)) (x : A) :
  accepting (rev preds) x = accepting preds x.
Proof. unfold accepting. rewrite filter_rev, length_rev. reflexivity. Qed.

Lemma in_repeated {A : Type} (count : A -> nat) (l : list A) (e : A) :
  In e (flat_map (fun x => repeat x (count x)) l) <-> In e l /\ count e <> 0%nat.
Proof.
  rewrite in_flat_map. split.
  - intros (x & Hx & Hin). pose proof (repeat_spec _ _ _ Hin) as ->.
    split; [exact Hx |]. destruct (count x); [contradiction | discriminate].
  - intros [He Hc]. exists e. split; [exact He |].
    destruct (count e); [contradiction | left; reflexivity].
Qed.

Lemma length_repeated {A : Type} (count : A -> nat) (l : list A) :
  List.length (flat_map (fun x => repeat x (count x)) l) = list_sum (map count l).
Proof.
  induction l as [|x l IH]; simpl; [reflexivity |].
  rewrite length_app, repeat_length, IH. reflexivity.
Qed.

Lemma in_block (ys : list (string * (ExperienceItem -> bool)))
    (entries : list ExperienceItem) (x : ExperienceWithYear) :
  In x (yearBlocks ys entries) ->
  exists yp, In yp ys /\ year x = fst yp /\ In (entry x) entries /\ snd yp (entry x) = true.
Proof.
  unfold yearBlocks. rewrite in_flat_map. intros (yp & Hyp & Hx).
  apply in_map_iff in Hx as (e & <- & He). apply filter_In in He as [He Hp].
  exists yp. repeat split; assumption.
Qed.

(** X13.  Whatever list stands in the place of [raw], the flattened list
    holds each entry once for every year predicate that accepts it: an
    entry that no predicate accepts is left out, one that several accept
    is listed under each of their years; and every item listed is an entry
    of the list, under a year whose predicate accepts it. *)
Theorem build_items_multiplicity (entries : list ExperienceItem) :
  let items := buildItemsFrom (groupByYear entries) in
  let matches := accepting (map snd order) in
  Permutation (map entry items) (flat_map (fun e => repeat e (matches e)) entries) /\
  List.length items = list_sum (map matches entries) /\
  (forall e, In e (map entry items) <-> In e entries /\ matches e <> 0%nat) /\
  Forall (fun x => In (entry x) entries /\ In (year x) (matchingYears (entry x))) items.
Proof.
  intros items matches.
  assert (Hperm : Permutation (map entry items)
                    (flat_map (fun e => repeat e (matches e)) entries)).
  { subst items matches. rewrite buildItems_blocks, entries_of_blocks, map_rev.
    rewrite buckets_multiplicity.
    erewrite flat_map_ext; [reflexivity |].
    intros e. cbv beta. rewrite accepting_rev. reflexivity. }
  split; [exact Hperm | split; [| split]].
  - rewrite <- (length_map entry), (Permutation_length Hperm). apply length_repeated.
  - intros e. rewrite <- in_repeated. split; apply Permutation_in;
      [exact Hperm | symmetry; exact Hperm].
  - subst items. rewrite buildItems_blocks. apply Forall_forall. intros x Hx.
    apply in_block in Hx as (yp & Hyp & Hy & He & Hp). split; [exact He |].
    unfold matchingYears, keys. rewrite Hy. apply in_map. apply filter_In.
    split; [apply in_rev; exact Hyp | exact Hp].
Qed.

(** ** [ExperienceDeck] and its rows *)

Lemma nth_error_mapFrom {A B : Type} (f : A -> nat -> B) (i : nat) (l : list A) (k : nat) :
  nth_error (mapFrom f i l) k = option_map (fun x => f x (i + k)%nat) (nth_error l k).
Proof.
  revert i k. induction l as [|x l IH]; intros i [|k]; simpl; try reflexivity.
  - rewrite Nat.add_0_r. reflexivity.
  - rewrite IH. rewrite Nat.add_succ_r. reflexivity.
Qed.

Lemma rows_items (items : list ExperienceWithYear) :
  map rowItem (ExperienceTimelineList items) = items.
Proof.
  unfold ExperienceTimelineList, mapIndexed. rewrite map_mapFrom. cbn [rowItem timelineRow].
  generalize 0%nat. induction items as [|x l IH]; intros i; simpl;
    [reflexivity | rewrite IH; reflexivity].
Qed.

(** X14.  [ExperienceDeck] shows the "no experience entries yet" block
    exactly when the list is empty, which for the grouped data means that
    no year predicate accepts any entry; otherwise it shows one row per
    item, in the order of the list, row [i] keyed by its year, org, role
    and [i], with the parallax amount -70 on even rows and -55 on odd ones.
    The [mode] makes no difference. *)
Theorem experience_deck_view (mode : Mode) (items : list ExperienceWithYear)
    (entries : list ExperienceItem) :
  (ExperienceDeckOf mode items = NoEntriesYet <-> items = []) /\
  ExperienceDeckOf mode items = ExperienceDeckOf timeline items /\
  (forall rows, ExperienceDeckOf mode items = Timeline rows ->
     map rowItem rows = items /\
     forall i row, nth_error rows i = Some row ->
       nth_error items i = Some (rowItem row) /\
       rowKey row = makeEntryKey (rowItem row) i /\
       amount row = (if Nat.even i then -70 else -55)) /\
  (ExperienceDeckOf mode (buildItemsFrom (groupByYear entries)) = NoEntriesYet <->
   Forall (fun e => accepting (map snd order) e = 0%nat) entries).
Proof.
  assert (Hempty : forall l, ExperienceDeckOf mode l = NoEntriesYet <-> l = []).
  { intros l. unfold ExperienceDeckOf. destruct l; cbn; [tauto |].
    destruct mode; split; discriminate. }
  split; [apply Hempty | split; [| split]].
  - destruct mode; reflexivity.
  - intros rows Hrows.
    assert (E : rows = ExperienceTimelineList items).
    { unfold ExperienceDeckOf in Hrows. destruct items; cbn in Hrows; [discriminate |].
      destruct mode; injection Hrows as <-; reflexivity. }
    subst rows. split; [apply rows_items |].
    intros i row Hrow. unfold ExperienceTimelineList, mapIndexed in Hrow.
    rewrite nth_error_mapFrom in Hrow. destruct (nth_error items i) as [x|]; [| discriminate].
    injection Hrow as <-. cbn [rowItem rowKey amount timelineRow Nat.add].
    repeat split. rewrite <- Nat.negb_odd, <- Nat.bit0_mod, Nat.bit0_odd.
    destruct (Nat.odd i); reflexivity.
  - rewrite Hempty.
    destruct (build_items_multiplicity entries) as (_ & _ & Hin & _).
    split.
    + intros E. apply Forall_forall. intros e He.
      destruct (Nat.eq_dec (accepting (map snd order) e) 0) as [H0 | Hn]; [exact H0 |].
      exfalso. pose proof (proj2 (Hin e) (conj He Hn)) as Habs.
      rewrite E in Habs. exact Habs.
    + intros Hall. destruct (buildItemsFrom (groupByYear entries)) as [|x l] eqn:E;
        [reflexivity |].
      exfalso. destruct (proj1 (Hin (entry x)) (or_introl eq_refl)) as [He Hn].
      rewrite Forall_forall in Hall. exact (Hn (Hall _ He)).
Qed.

(** ** [buildItems] over any object *)

Lemma insertBy_perm {A : Type} (cmp : A -> A -> Z) (x : A) (l : list A) :
  Permutation (insertBy cmp x l) (x :: l).
Proof.
  induction l as [|y l IH]; simpl; [reflexivity |].
  destruct (0 <? cmp x y); [| reflexivity].
  rewrite IH. apply perm_swap.
Qed.

Lemma sortBy_perm {A : Type} (cmp : A -> A -> Z) (l : list A) :
  Permutation (sortBy cmp l) l.
Proof.
  unfold sortBy. induction l as [|x l IH]; simpl; [reflexivity |].
  rewrite insertBy_perm. constructor. exact IH.
Qed.

Lemma byYearDescending_numeric (a b : string) :
  Number a <> None -> Number b <> None ->
  byYearDescending a b = yearValue b - yearValue a.
Proof.
  unfold byYearDescending, yearValue. intros Ha Hb.
  destruct (Number a); [| contradiction]. destruct (Number b); [| contradiction].
  reflexivity.
Qed.

Section SortedYears.
Let numeric (k : string) : Prop := Number k <> None.
Let notLater (a b : string) : Prop := yearValue b <= yearValue a.

Lemma insert_year_sorted (x : string) (l : list string) :
  numeric x -> Forall numeric l -> StronglySorted notLater l ->
  StronglySorted notLater (insertBy byYearDescending x l).
Proof.
  intros Hx Hl Hs. induction Hs as [|y l Hs IH Hy]; simpl.
  - repeat constructor.
  - inversion Hl as [|? ? Hny Hnl]; subst.
    rewrite (byYearDescending_numeric x y Hx Hny).
    destruct (Z.ltb_spec 0 (yearValue y - yearValue x)) as [Hlt | Hge].
    + constructor; [apply IH; exact Hnl |].
      apply (Permutation_Forall (Permutation_sym (insertBy_perm _ x l))).
      constructor; [unfold notLater; lia | exact Hy].
    + constructor; [constructor; assumption |].
      constructor; [unfold notLater; lia |].
      apply Forall_forall. intros z Hz. rewrite Forall_forall in Hy.
      specialize (Hy z Hz). unfold notLater in *. lia.
Qed.

Lemma sort_years_sorted (l : list string) :
  Forall numeric l -> StronglySorted notLater (sortBy byYearDescending l).
Proof.
  unfold sortBy. induction l as [|x l IH]; intros Hl; simpl; [constructor |].
  inversion Hl as [|? ? Hx Hl']; subst.
  apply insert_year_sorted; [exact Hx | | apply IH; exact Hl'].
  apply (Permutation_Forall (Permutation_sym (sortBy_perm _ l))). exact Hl'.
Qed.
End SortedYears.

Section TaggedBuckets.
Variable bucket : string -> list ExperienceItem.

Lemma taggedBuckets_cons (y : string) (ys : list string) :
  taggedBuckets bucket (y :: ys) =
  map (fun item => {| entry := item; year := y |}) (bucket y) ++ taggedBuckets bucket ys.
Proof. reflexivity. Qed.

Lemma in_taggedBuckets (ys : list string) (x : ExperienceWithYear) :
  In x (taggedBuckets bucket ys) -> In (year x) ys.
Proof.
  unfold taggedBuckets. rewrite in_flat_map. intros (y & Hy & Hx).
  apply in_map_iff in Hx as (e & <- & _). exact Hy.
Qed.

Lemma taggedBuckets_sorted (ys : list string) :
  StronglySorted (fun a b => yearValue b <= yearValue a) ys ->
  StronglySorted (fun a b => yearValue (year b) <= yearValue (year a))
                 (taggedBuckets bucket ys).
Proof.
  induction 1 as [|y ys Hs IH Hy]; [constructor |].
  rewrite taggedBuckets_cons. apply StronglySorted_app.
  - induction (bucket y) as [|e l IHl]; simpl; constructor; [exact IHl |].
    apply Forall_forall. intros x Hx. apply in_map_iff in Hx as (e' & <- & _).
    simpl. lia.
  - exact IH.
  - intros a b Ha Hb. apply in_map_iff in Ha as (e & <- & _).
    apply in_taggedBuckets in Hb. rewrite Forall_forall in Hy. exact (Hy _ Hb).
Qed.

Lemma taggedBuckets_absent (y : string) (ys : list string) :
  ~ In y ys -> bucketOf y (taggedBuckets bucket ys) = [].
Proof.
  induction ys as [|y' ys IH]; intros Hn; [reflexivity |].
  rewrite taggedBuckets_cons, bucketOf_app, bucketOf_other_block, IH;
    [reflexivity | | ]; intros H; apply Hn; [right; exact H | left; exact H].
Qed.

Lemma taggedBuckets_bucket (y : string) (ys : list string) :
  NoDup ys -> In y ys -> bucketOf y (taggedBuckets bucket ys) = bucket y.
Proof.
  induction ys as [|y' ys IH]; intros Hnd Hin; [contradiction |].
  inversion Hnd as [|? ? Hnot Hnd']; subst.
  rewrite taggedBuckets_cons, bucketOf_app. destruct Hin as [-> | Hin].
  - rewrite bucketOf_own_block, taggedBuckets_absent by assumption. apply app_nil_r.
  - rewrite bucketOf_other_block, IH by
      (try assumption; intros E; apply Hnot; rewrite E; exact Hin).
    reflexivity.
Qed.

Lemma taggedBuckets_entries (ys : list string) :
  map entry (taggedBuckets bucket ys) = flat_map bucket ys.
Proof.
  induction ys as [|y ys IH]; [reflexivity |].
  rewrite taggedBuckets_cons, map_app, map_map, IH. cbn [entry flat_map].
  rewrite map_id. reflexivity.
Qed.
End TaggedBuckets.

Lemma obj_get_own {V : Type} (o : jsobject V) (k : string) (v : V) :
  NoDup (keys o) -> In (k, v) o -> obj_get k o = present v.
Proof.
  induction o as [|[k' v'] o IH]; simpl; intros Hnd Hin; [contradiction |].
  inversion Hnd as [|? ? Hnot Hnd']; subst.
  destruct Hin as [E | Hin].
  - injection E as -> ->. rewrite String.eqb_refl. reflexivity.
  - destruct (String.eqb_spec k k') as [-> | _]; [| apply IH; assumption].
    exfalso. apply Hnot. unfold keys. apply in_map_iff.
    exists (k', v). split; [reflexivity | exact Hin].
Qed.

Lemma lookup_all_keys {V : Type} (o : jsobject (list V)) :
  NoDup (keys o) ->
  flat_map (fun y => nullish (obj_get y o) []) (keys o) = List.concat (map snd o).
Proof.
  intros Hnd. rewrite flat_map_concat_map. f_equal. unfold keys. rewrite map_map.
  apply map_ext_in. intros [k v] Hin. cbn [fst snd].
  rewrite (obj_get_own o k v Hnd Hin). reflexivity.
Qed.

(** X15.  For any object in the place of [experienceByYear] whose own keys
    are strings of digits that stand for numbers up to 2^53 (the keys
    [Number] reads exactly): [buildItems] lists the items by year in
    descending numeric order, holds the entries of all the buckets and no
    other, and under each year lists that year's bucket in its own order. *)
Theorem build_items_any_object (byYear : jsobject (list ExperienceItem)) :
  NoDup (keys byYear) ->
  Forall (fun k => Number k <> None) (keys byYear) ->
  let items := buildItemsFrom byYear in
  StronglySorted (fun a b => yearValue (year b) <= yearValue (year a)) items /\
  Permutation (map entry items) (List.concat (map snd byYear)) /\
  Forall (fun yb => bucketOf (fst yb) items = snd yb) byYear /\
  Forall (fun x => In (year x) (keys byYear)) items.
Proof.
  intros Hnd Hnum items.
  set (bucket := fun y => nullish (obj_get y byYear) []).
  set (years := sortBy byYearDescending (keys byYear)).
  assert (Hitems : items = taggedBuckets bucket years) by reflexivity.
  assert (Hperm : Permutation years (keys byYear)) by apply sortBy_perm.
  rewrite Hitems. repeat apply conj.
  - apply taggedBuckets_sorted. apply sort_years_sorted. exact Hnum.
  - rewrite taggedBuckets_entries, <- (lookup_all_keys byYear Hnd).
    apply Permutation_flat_map. exact Hperm.
  - apply Forall_forall. intros [k v] Hin. cbn [fst snd].
    rewrite taggedBuckets_bucket.
    + unfold bucket. rewrite (obj_get_own byYear k v Hnd Hin). reflexivity.
    + apply (Permutation_NoDup (Permutation_sym Hperm)). exact Hnd.
    + apply (Permutation_in _ (Permutation_sym Hperm)).
      unfold keys. apply in_map_iff. exists (k, v). split; [reflexivity | exact Hin].
  - apply Forall_forall. intros x Hx. apply in_taggedBuckets in Hx.
    apply (Permutation_in _ Hperm). exact Hx.
Qed.

Lemma build_items_any_object_witness :
  NoDup (keys experienceByYear) /\
  Forall (fun k => Number k <> None) (keys experienceByYear) /\
  Permutation (map entry buildItems) (List.concat (map snd experienceByYear)).
Proof.
  assert (Hnd : NoDup (keys experienceByYear)) by exact order_keys_distinct.
  assert (Hnum : Forall (fun k => Number k <> None) (keys experienceByYear))
    by (repeat constructor; discriminate).
  split; [exact Hnd | split; [exact Hnum |]].
  exact (proj1 (proj2 (build_items_any_object experienceByYear Hnd Hnum))).
Defined.
